(** * Temporary-directory pool of testcafe: [src/utils/temp-directory.js]

    A shallow embedding of the [LockFile] and [TempDirectory] classes.  The
    module talks to the file system through five calls ([fs.openSync] with
    flag ['wx'], [fs.closeSync], [fs.unlinkSync], [readDir], [ensureDir]) and
    to the [tmp] package through [tmp.tmpNameSync]; these are modelled in
    the first half of the file as functions on an explicit file-system
    state.  Paths are built with [path.join]: on the arguments the module
    passes it is a concatenation, [path_join], and [path.join] is given in
    full to say which arguments these are.  The code of the two classes
    follows, method by method, in a state-and-exception monad, and then the
    properties.

    Left out: the lines written to [DEBUG_LOGGER], which nothing reads back,
    and the registration of [disposeDirectories] as exit hook, which only
    says when that function runs. *)

From Stdlib Require Import Ascii.
From stdpp Require Import base option list strings gmap.

(** ** Strings and paths *)

Definition sep : ascii := "/"%char.

Definition is_sep (c : ascii) : bool := bool_decide (c = sep).

(** [s.startsWith(p)] *)
Definition startsWith (s p : string) : bool := Strings.String.prefix p s.

(** No separator occurs in [s]: [s] is a single path segment. *)
Fixpoint plain (s : string) : bool :=
  match s with
  | EmptyString => true
  | String c s' => negb (is_sep c) && plain s'
  end.

(** [path.join(a, b)] on POSIX for the arguments this module passes: [a] is
    a normalised absolute directory path and [b] a single segment that
    names an entry.  Empty arguments are skipped and nothing at all is
    ["."], as [path.join] has it.  On such arguments the normalisation that
    [path.join] ends with has nothing to do ([path_join_is_posix_join]
    below); on others, a segment [..] or a directory [/] for instance, it
    has, and this function is not [path.join] there
    ([path_join_outside_its_domain]). *)
Definition path_join (a b : string) : string :=
  if bool_decide (a = "") then (if bool_decide (b = "") then "." else b)
  else if bool_decide (b = "") then a
  else a +:+ String sep b.

(** Trailing separators are not part of the last segment. *)
Fixpoint strip_trailing_seps (s : string) : string :=
  match s with
  | EmptyString => EmptyString
  | String c s' =>
      match strip_trailing_seps s' with
      | EmptyString => if is_sep c then EmptyString else String c EmptyString
      | r => String c r
      end
  end.

(** Splits at the last separator: [(Some d, b)] when [s] is [d/b] with [b]
    free of separators, [(None, s)] when [s] has no separator at all. *)
Fixpoint split_last_sep (s : string) : option string * string :=
  match s with
  | EmptyString => (None, EmptyString)
  | String c s' =>
      match split_last_sep s' with
      | (Some d, b) => (Some (String c d), b)
      | (None, b) => if is_sep c then (Some EmptyString, b) else (None, String c b)
      end
  end.

(** [path.basename(p)] on POSIX. *)
Definition basename (p : string) : string :=
  snd (split_last_sep (strip_trailing_seps p)).

(** *** [path.join] in full

    [path.posix.join] of Node joins its non-empty arguments with the
    separator and normalises the result.  It is given here segment by
    segment, to delimit where [path_join] stands for it. *)

(** [p.split("/")] *)
Fixpoint split_sep (s : string) : list string :=
  match s with
  | EmptyString => [EmptyString]
  | String c s' =>
      if is_sep c then EmptyString :: split_sep s'
      else match split_sep s' with
           | x :: l => String c x :: l
           | [] => [String c EmptyString]
           end
  end.

(** [segments.join("/")] *)
Fixpoint join_sep (l : list string) : string :=
  match l with
  | [] => EmptyString
  | x :: l' =>
      match l' with
      | [] => x
      | _ :: _ => x +:+ String sep (join_sep l')
      end
  end.

(** What [normalizeString] does when it reaches the end of a segment; [res]
    holds the segments kept so far, the last one first.  Empty segments and
    [.] are dropped; [..] takes the last segment away, unless there is none
    or it is [..] itself, in which case [..] is kept if the path is
    relative. *)
Definition normalize_step (allowAboveRoot : bool) (res : list string) (segment : string)
  : list string :=
  if bool_decide (segment = "") || bool_decide (segment = ".") then res
  else if bool_decide (segment = "..") then
    match res with
    | last :: res' =>
        if bool_decide (last = "..") then (if allowAboveRoot then ".." :: res else res)
        else res'
    | [] => if allowAboveRoot then [".."] else []
    end
  else segment :: res.

Definition normalizeString (p : string) (allowAboveRoot : bool) : string :=
  join_sep (rev (foldl (normalize_step allowAboveRoot) [] (split_sep p))).

Definition isAbsolute (p : string) : bool :=
  match p with
  | String c _ => is_sep c
  | EmptyString => false
  end.

Fixpoint trailingSeparator (p : string) : bool :=
  match p with
  | EmptyString => false
  | String c p' =>
      match p' with
      | EmptyString => is_sep c
      | String _ _ => trailingSeparator p'
      end
  end.

(** [path.posix.normalize(p)] *)
Definition posix_normalize (p : string) : string :=
  if bool_decide (p = "") then "."
  else
    let r := normalizeString p (negb (isAbsolute p)) in
    if bool_decide (r = "")
    then (if isAbsolute p then "/" else if trailingSeparator p then "./" else ".")
    else (if isAbsolute p then "/" else "") +:+ r +:+ (if trailingSeparator p then "/" else "").

(** [path.posix.join(a, b)] *)
Definition posix_join (a b : string) : string :=
  if bool_decide (a = "") then (if bool_decide (b = "") then "." else posix_normalize b)
  else if bool_decide (b = "") then posix_normalize a
  else posix_normalize (a +:+ String sep b).

(** A segment that can name a directory entry. *)
Definition proper_segment (b : string) : bool :=
  plain b && negb (bool_decide (b = "")) && negb (bool_decide (b = "."))
  && negb (bool_decide (b = "..")).

(** An absolute path other than [/] that normalisation leaves as it is. *)
Definition normal_dir (a : string) : bool :=
  isAbsolute a && negb (trailingSeparator a) && bool_decide (posix_normalize a = a).

(** ** The file system *)

Definition Pid := nat.

(** A regular file remembers the process that created it; the kernel keeps
    no such record, it is carried here so that "the marker was created by
    this process" can be stated.  A directory has its permission bits for
    the processes of the model and its entries in enumeration order. *)
Inductive Node :=
| File (creator : Pid)
| Dir (readable writable : bool) (entries : list string).

Global Instance Node_eq_dec : EqDecision Node.
Proof. solve_decision. Defined.

Inductive errno := EEXIST | ENOENT | ENOTDIR | EISDIR | EACCES | ENOSPC | EBADF.

Global Instance errno_eq_dec : EqDecision errno.
Proof. solve_decision. Defined.

Record FS := mkFS {
  nodes : gmap string Node;   (* absolute path -> node *)
  free_inodes : nat           (* how many more files or directories fit *)
}.

Definition is_dir (o : option Node) : bool :=
  match o with Some (Dir _ _ _) => true | _ => false end.

(** Adds the node [n] at the absent path [p]: the parent must be a writable
    directory and an inode must be left.  Relative paths do not resolve (no
    working directory is modelled). *)
Definition fs_create (p : string) (n : Node) (f : FS) : errno + FS :=
  match split_last_sep p with
  | (Some d, b) =>
      match nodes f !! d with
      | Some (Dir r w es) =>
          if negb w then inl EACCES
          else match free_inodes f with
               | O => inl ENOSPC
               | S k => inr (mkFS (<[p := n]> (<[d := Dir r w (es ++ [b])]> (nodes f))) k)
               end
      | Some (File _) => inl ENOTDIR
      | None => inl ENOENT
      end
  | (None, _) => inl ENOENT
  end.

(** [open(p, O_WRONLY | O_CREAT | O_EXCL)]: the file must not exist. *)
Definition fs_open_excl (me : Pid) (p : string) (f : FS) : errno + FS :=
  match nodes f !! p with
  | Some _ => inl EEXIST
  | None => fs_create p (File me) f
  end.

(** A file can be created at [p]: nothing is there, the parent is a
    directory that may be written to, and an inode is left. *)
Definition creatable (f : FS) (p : string) : Prop :=
  nodes f !! p = None ∧
  (∃ d b r es, split_last_sep p = (Some d, b) ∧ nodes f !! d = Some (Dir r true es)) ∧
  0 < free_inodes f.

(** [unlink(p)] *)
Definition fs_unlink (p : string) (f : FS) : errno + FS :=
  match nodes f !! p with
  | None => inl ENOENT
  | Some (Dir _ _ _) => inl EISDIR
  | Some (File _) =>
      match split_last_sep p with
      | (Some d, b) =>
          match nodes f !! d with
          | Some (Dir r w es) =>
              if negb w then inl EACCES
              else inr (mkFS (delete p (<[d := Dir r w (filter (λ e, e ≠ b) es)]> (nodes f)))
                             (S (free_inodes f)))
          | Some (File _) => inl ENOTDIR
          | None => inl ENOENT
          end
      | (None, _) => inl ENOENT
      end
  end.

(** [mkdir(p)] with the default mode: the new directory is readable and
    writable. *)
Definition fs_mkdir (p : string) (f : FS) : errno + FS :=
  match nodes f !! p with
  | Some _ => inl EEXIST
  | None => fs_create p (Dir true true []) f
  end.

(** [mkdir -p]: an existing directory is accepted, missing ancestors are
    created first.  The fuel bounds the depth of the path. *)
Fixpoint fs_mkdirp (fuel : nat) (p : string) (f : FS) : errno + FS :=
  match nodes f !! p with
  | Some (Dir _ _ _) => inr f
  | Some (File _) => inl EEXIST
  | None =>
      match fuel with
      | O => inl ENOENT
      | S fuel' =>
          match split_last_sep p with
          | (Some d, _) =>
              match fs_mkdirp fuel' d f with
              | inl e => inl e
              | inr f' => fs_mkdir p f'
              end
          | (None, _) => inl ENOENT
          end
      end
  end.

(** [readdir(p)]: the entries in enumeration order. *)
Definition fs_readdir (p : string) (f : FS) : errno + list string :=
  match nodes f !! p with
  | Some (Dir r _ es) => if r then inr es else inl EACCES
  | Some (File _) => inl ENOTDIR
  | None => inl ENOENT
  end.

(** ** Objects of the module *)

(** [class LockFile]: the only field is the path of the marker file. *)
Record LockFile := mkLockFile { lf_path : string }.

(** [class TempDirectory].  [lockFile] is [null] until the directory is
    claimed. *)
Record TempDirectory := mkTempDirectory {
  namePrefix : string;
  path : string;
  lockFile : option LockFile
}.

Global Instance LockFile_eq_dec : EqDecision LockFile.
Proof. solve_decision. Defined.

Global Instance TempDirectory_eq_dec : EqDecision TempDirectory.
Proof. solve_decision. Defined.

Definition set_path (p : string) (this : TempDirectory) : TempDirectory :=
  mkTempDirectory (namePrefix this) p (lockFile this).

Definition set_lockFile (l : option LockFile) (this : TempDirectory) : TempDirectory :=
  mkTempDirectory (namePrefix this) (path this) l.

(** [USED_TEMP_DIRS = {}]: a plain JS object used as a map from path to
    [TempDirectory].  Its own properties are kept in insertion order, the
    order in which [Object.values] enumerates them.  The values are
    references in JS; here they are copies, which is the same thing as long
    as an object is not assigned to once it is registered, and no method
    assigns to [this] after [init] has registered it. *)
Definition Registry := list (string * TempDirectory).

Fixpoint own_get (k : string) (r : Registry) : option TempDirectory :=
  match r with
  | [] => None
  | (k', v) :: r' => if bool_decide (k' = k) then Some v else own_get k r'
  end.

(** The properties every plain object inherits from [Object.prototype];
    each of them holds a function or an object, hence a truthy value. *)
Definition Object_prototype_keys : list string :=
  [ "constructor"; "__defineGetter__"; "__defineSetter__"; "hasOwnProperty";
    "__lookupGetter__"; "__lookupSetter__"; "isPrototypeOf";
    "propertyIsEnumerable"; "toString"; "valueOf"; "__proto__";
    "toLocaleString" ].

(** Truthiness of [obj[k]]: an own property (always an object here) or an
    inherited one. *)
Definition js_truthy_get (r : Registry) (k : string) : bool :=
  bool_decide (is_Some (own_get k r)) || bool_decide (k ∈ Object_prototype_keys).

(** [obj[k] = v] for a key that is not [__proto__]: an existing own property
    keeps its place, a new one goes last. *)
Fixpoint js_set (k : string) (v : TempDirectory) (r : Registry) : Registry :=
  match r with
  | [] => [(k, v)]
  | (k', v') :: r' => if bool_decide (k' = k) then (k, v) :: r' else (k', v') :: js_set k v r'
  end.

(** [delete obj[k]] *)
Definition js_delete (k : string) (r : Registry) : Registry :=
  List.filter (λ kv, negb (bool_decide (kv.1 = k))) r.

(** [Object.values(obj)] *)
Definition Object_values (r : Registry) : list TempDirectory := r.*2.

(** ** The process and the world *)

(** What is private to one process: its id, the module-level object
    [USED_TEMP_DIRS], its open file descriptors and the random source of
    the [tmp] package ([tmp_random n] is the [n]-th suffix it draws). *)
Record Proc := mkProc {
  pid : Pid;
  USED_TEMP_DIRS : Registry;
  open_fds : list nat;
  tmp_random : nat → string;
  tmp_drawn : nat
}.

(** The file system is shared by all processes. *)
Record World := mkWorld { fs : FS; proc : Proc }.

Definition set_fs (f : FS) (w : World) : World := mkWorld f (proc w).

Definition set_USED_TEMP_DIRS (r : Registry) (w : World) : World :=
  mkWorld (fs w)
    (mkProc (pid (proc w)) r (open_fds (proc w)) (tmp_random (proc w)) (tmp_drawn (proc w))).

Definition set_open_fds (l : list nat) (w : World) : World :=
  mkWorld (fs w)
    (mkProc (pid (proc w)) (USED_TEMP_DIRS (proc w)) l (tmp_random (proc w)) (tmp_drawn (proc w))).

Definition set_tmp_drawn (n : nat) (w : World) : World :=
  mkWorld (fs w)
    (mkProc (pid (proc w)) (USED_TEMP_DIRS (proc w)) (open_fds (proc w)) (tmp_random (proc w)) n).

(** Another process takes over on the same file system. *)
Definition switch_to (p : Proc) (w : World) : World := mkWorld (fs w) p.

(** ** Computations: state and exceptions *)

Inductive Exn :=
| FsError (e : errno)   (* thrown by [fs] and by the promisified functions *)
| TypeError             (* a method called on [null] *)
| TmpError.             (* thrown by the [tmp] package *)

Inductive Res (A : Type) :=
| Ok (a : A)
| Throw (e : Exn).
Arguments Ok {A} a.
Arguments Throw {A} e.

(** A synchronous call returns or throws, an awaited promise resolves or
    rejects: both are a [Res].  The effects made before a throw stay. *)
Definition M (A : Type) : Type := World → Res A * World.

Global Instance M_ret : MRet M := λ A a w, (Ok a, w).

Global Instance M_bind : MBind M := λ A B k m w,
  match m w with
  | (Ok a, w') => k a w'
  | (Throw e, w') => (Throw e, w')
  end.

Definition throw {A} (e : Exn) : M A := λ w, (Throw e, w).

(** [try { m } catch (e) { h e }] *)
Definition try_catch {A} (m : M A) (h : Exn → M A) : M A := λ w,
  match m w with
  | (Ok a, w') => (Ok a, w')
  | (Throw e, w') => h e w'
  end.

(** Reads and writes of the module-level object [USED_TEMP_DIRS]. *)
Definition registry_values : M (list TempDirectory) := λ w,
  (Ok (Object_values (USED_TEMP_DIRS (proc w))), w).

Definition registry_truthy (k : string) : M bool := λ w,
  (Ok (js_truthy_get (USED_TEMP_DIRS (proc w)) k), w).

Definition registry_assign (k : string) (v : TempDirectory) : M unit := λ w,
  (Ok tt, set_USED_TEMP_DIRS (js_set k v (USED_TEMP_DIRS (proc w))) w).

Definition registry_delete (k : string) : M unit := λ w,
  (Ok tt, set_USED_TEMP_DIRS (js_delete k (USED_TEMP_DIRS (proc w))) w).

(** [l.filter(f)] for a callback that reads the state. *)
Fixpoint filterM {A} (f : A → M bool) (l : list A) : M (list A) :=
  match l with
  | [] => mret []
  | x :: l' => b ← f x; r ← filterM f l'; mret (if b : bool then x :: r else r)
  end.

Definition rejects {A} (r : Res A * World) : Prop :=
  match r.1 with Ok _ => False | Throw _ => True end.

(** [list.forEach(f)] *)
Fixpoint forEach {A} (f : A → M unit) (l : list A) : M unit :=
  match l with
  | [] => mret tt
  | x :: l' => f x;; forEach f l'
  end.

(** ** System calls as computations *)

(** The lowest descriptor that is not open. *)
Fixpoint lowest_free (fuel n : nat) (fds : list nat) : nat :=
  match fuel with
  | O => n
  | S k => if bool_decide (n ∈ fds) then lowest_free k (S n) fds else n
  end.

Fixpoint remove_first (fd : nat) (fds : list nat) : list nat :=
  match fds with
  | [] => []
  | x :: l => if bool_decide (x = fd) then l else x :: remove_first fd l
  end.

(** [fs.openSync(p, 'wx')]: exclusive creation; returns the descriptor. *)
Definition openSync_wx (p : string) : M nat := λ w,
  match fs_open_excl (pid (proc w)) p (fs w) with
  | inl e => (Throw (FsError e), w)
  | inr f' =>
      let fd := lowest_free (length (open_fds (proc w))) 0 (open_fds (proc w)) in
      (Ok fd, set_open_fds (fd :: open_fds (proc w)) (set_fs f' w))
  end.

(** [fs.closeSync(fd)] *)
Definition closeSync (fd : nat) : M unit := λ w,
  if bool_decide (fd ∈ open_fds (proc w))
  then (Ok tt, set_open_fds (remove_first fd (open_fds (proc w))) w)
  else (Throw (FsError EBADF), w).

(** [fs.unlinkSync(p)] *)
Definition unlinkSync (p : string) : M unit := λ w,
  match fs_unlink p (fs w) with
  | inl e => (Throw (FsError e), w)
  | inr f' => (Ok tt, set_fs f' w)
  end.

(** Modelled from the spec: [ensureDir] of [utils/promisified-functions],
    which is not under src/.  The spec calls it an idempotent directory
    creation; it is taken to be [mkdir -p]. *)
Definition ensureDir (p : string) : M unit := λ w,
  match fs_mkdirp (String.length p) p (fs w) with
  | inl e => (Throw (FsError e), w)
  | inr f' => (Ok tt, set_fs f' w)
  end.

(** Modelled from the spec: [readDir] of [utils/promisified-functions],
    which is not under src/.  It lists the entries directly under a
    directory, by name, in the order of the enumeration. *)
Definition readDir (p : string) : M (list string) := λ w,
  match fs_readdir p (fs w) with
  | inl e => (Throw (FsError e), w)
  | inr l => (Ok l, w)
  end.

Definition DEFAULT_TRIES : nat := 3.

(** Modelled from the spec: [tmp.tmpNameSync({ dir, prefix })] of the [tmp]
    package, which is not under src/.  It draws a suffix, answers
    [dir/prefix<suffix>] if no such path exists, draws again otherwise, and
    throws when the tries are used up. *)
Fixpoint tmpName_tries (tries : nat) (dir prefix : string) : M string :=
  match tries with
  | O => throw TmpError
  | S t => λ w,
      let name := path_join dir (prefix +:+ tmp_random (proc w) (tmp_drawn (proc w))) in
      let w' := set_tmp_drawn (S (tmp_drawn (proc w))) w in
      match nodes (fs w) !! name with
      | None => (Ok name, w')
      | Some _ => tmpName_tries t dir prefix w'
      end
  end.

Definition tmpNameSync (dir prefix : string) : M string :=
  tmpName_tries DEFAULT_TRIES dir prefix.

(** ** The module [temp-directory.js] *)

Section TempDirectoryModule.

(** [os.tmpdir()] *)
Variable os_tmpdir : string.

Definition TESTCAFE_TMP_DIRS_ROOT : string := path_join os_tmpdir "testcafe-tmp".
Definition LOCKFILE_NAME : string := ".testcafe-lockfile".

(** *** [class LockFile]

    [DEBUG_LOGGER] only writes to the debug stream and is left out. *)

(** [constructor (dirPath)] *)
Definition LockFile_new (dirPath : string) : LockFile :=
  mkLockFile (path_join dirPath LOCKFILE_NAME).

(** [init ()] *)
Definition LockFile_init (this : LockFile) : M bool :=
  try_catch
    (fd ← openSync_wx (lf_path this);
     closeSync fd;;
     mret true)
    (λ e, mret false).

(** [dispose ()] *)
Definition LockFile_dispose (this : LockFile) : M unit :=
  try_catch (unlinkSync (lf_path this)) (λ e, mret tt).

(** *** [class TempDirectory]

    A method that assigns to [this] returns the updated object next to its
    result; [await] is sequencing. *)

(** [constructor (namePrefix)] *)
Definition TempDirectory_new (namePrefix : string) : TempDirectory :=
  mkTempDirectory namePrefix "" None.

(** [_getTmpDirsList ()] *)
Definition _getTmpDirsList (this : TempDirectory) : M (list string) :=
  tmpDirNames ← readDir TESTCAFE_TMP_DIRS_ROOT;
  unused ← filterM (λ tmpDir, used ← registry_truthy tmpDir; mret (negb used)) tmpDirNames;
  mret (List.filter (λ tmpDir, startsWith (basename tmpDir) (namePrefix this)) unused).

(** [_findFreeTmpDir (tmpDirNames)] *)
Fixpoint _findFreeTmpDir (this : TempDirectory) (tmpDirNames : list string)
  : M (TempDirectory * bool) :=
  match tmpDirNames with
  | [] => mret (this, false)
  | tmpDirName :: rest =>
      let tmpDirPath := path_join TESTCAFE_TMP_DIRS_ROOT tmpDirName in
      let lockFile := LockFile_new tmpDirPath in
      acquired ← LockFile_init lockFile;
      if acquired : bool
      then mret (set_lockFile (Some lockFile) (set_path tmpDirPath this), true)
      else _findFreeTmpDir this rest
  end.

(** [_createNewTmpDir ()] *)
Definition _createNewTmpDir (this : TempDirectory) : M TempDirectory :=
  p ← tmpNameSync TESTCAFE_TMP_DIRS_ROOT (namePrefix this +:+ "-");
  let this := set_path p this in
  ensureDir (path this);;
  let lockFile := LockFile_new (path this) in
  let this := set_lockFile (Some lockFile) this in
  LockFile_init lockFile;;
  mret this.

(** [init ()] *)
Definition init (this : TempDirectory) : M TempDirectory :=
  ensureDir TESTCAFE_TMP_DIRS_ROOT;;
  tmpDirNames ← _getTmpDirsList this;
  '(this, existingTmpDirFound) ← _findFreeTmpDir this tmpDirNames;
  this ← (if existingTmpDirFound : bool then mret this else _createNewTmpDir this);
  registry_assign (path this) this;;
  mret this.

(** [static createDirectory (prefix)] *)
Definition createDirectory (prefix : string) : M TempDirectory :=
  let tmpDir := TempDirectory_new prefix in
  init tmpDir.

(** [dispose ()] *)
Definition dispose (this : TempDirectory) : M TempDirectory :=
  used ← registry_truthy (path this);
  if negb used then mret this
  else
    match lockFile this with
    | Some lockFile => LockFile_dispose lockFile
    | None => throw TypeError
    end;;
    registry_delete (path this);;
    mret this.

(** [static disposeDirectories ()] *)
Definition disposeDirectories : M unit :=
  tmpDirs ← registry_values;
  forEach (λ tmpDir, dispose tmpDir;; mret tt) tmpDirs.

(** *** Vocabulary of the properties *)

(** The marker file of the directory [d]. *)
Definition marker_of (d : string) : string := lf_path (LockFile_new d).

(** This process holds the lock of [d]: the marker exists and this process
    created it. *)
Definition holds_lock (w : World) (d : string) : Prop :=
  nodes (fs w) !! marker_of d = Some (File (pid (proc w))).

(** [d] is a key of the registry. *)
Definition registered (w : World) (d : string) : Prop :=
  is_Some (own_get d (USED_TEMP_DIRS (proc w))).

(** The two filters of [_getTmpDirsList] on a given listing. *)
Definition candidates (r : Registry) (prefix : string) (tmpDirNames : list string)
  : list string :=
  List.filter (λ tmpDir, startsWith (basename tmpDir) prefix)
    (List.filter (λ tmpDir, negb (js_truthy_get r tmpDir)) tmpDirNames).

(** The exclusive creation of the marker of the pool entry [tmpDirName]
    would succeed. *)
Definition can_acquire (w : World) (tmpDirName : string) : bool :=
  match fs_open_excl (pid (proc w))
          (marker_of (path_join TESTCAFE_TMP_DIRS_ROOT tmpDirName)) (fs w) with
  | inr _ => true
  | inl _ => false
  end.

(** [d] is a directory in which files may be created and deleted. *)
Definition writable_dir (f : FS) (d : string) : Prop :=
  ∃ r es, nodes f !! d = Some (Dir r true es).

Definition is_file (o : option Node) : bool :=
  match o with Some (File _) => true | _ => false end.

(** The pool entry [tmpDirName] is a writable directory without a marker,
    and the file system has room for one. *)
Definition unlocked_dir (w : World) (tmpDirName : string) : Prop :=
  writable_dir (fs w) (path_join TESTCAFE_TMP_DIRS_ROOT tmpDirName) ∧
  nodes (fs w) !! marker_of (path_join TESTCAFE_TMP_DIRS_ROOT tmpDirName) = None ∧
  0 < free_inodes (fs w).

(** The ways in which [init] can fail. *)
Definition pool_root_creation_fails (w : World) : Prop :=
  rejects (ensureDir TESTCAFE_TMP_DIRS_ROOT w).

Definition listing_fails (w : World) : Prop :=
  ∃ w1, ensureDir TESTCAFE_TMP_DIRS_ROOT w = (Ok tt, w1) ∧
        rejects (readDir TESTCAFE_TMP_DIRS_ROOT w1).

Definition fallback_creation_fails (prefix : string) (w : World) : Prop :=
  ∃ w1 tmpDirNames,
    ensureDir TESTCAFE_TMP_DIRS_ROOT w = (Ok tt, w1) ∧
    readDir TESTCAFE_TMP_DIRS_ROOT w1 = (Ok tmpDirNames, w1) ∧
    (∀ c, c ∈ candidates (USED_TEMP_DIRS (proc w1)) prefix tmpDirNames → can_acquire w1 c = false) ∧
    (rejects (tmpNameSync TESTCAFE_TMP_DIRS_ROOT (prefix +:+ "-") w1) ∨
     ∃ p w2, tmpNameSync TESTCAFE_TMP_DIRS_ROOT (prefix +:+ "-") w1 = (Ok p, w2) ∧
             rejects (ensureDir p w2)).

(** The objects a caller can have: one made by the constructor and not yet
    initialised, or one as [init] leaves it, with a path inside the pool and
    the lock file of that path. *)
Definition obj_wf (a : TempDirectory) : Prop :=
  (path a = "" ∧ lockFile a = None) ∨
  ((∃ tmpDirName, path a = path_join TESTCAFE_TMP_DIRS_ROOT tmpDirName) ∧
   lockFile a = Some (LockFile_new (path a))).

(** What [init] leaves in the registry: under the key [k] an object whose
    path is [k] and whose lock file is the marker of [k], the directory
    being one in which the marker can be created and deleted. *)
Definition registry_ok (w : World) : Prop :=
  ∀ k v, (k, v) ∈ USED_TEMP_DIRS (proc w) →
    path v = k ∧ lockFile v = Some (LockFile_new k) ∧ k ≠ "" ∧ writable_dir (fs w) k.

(** Every key of the registry is a path inside the pool. *)
Definition registry_in_pool (w : World) : Prop :=
  ∀ k v, (k, v) ∈ USED_TEMP_DIRS (proc w) →
    ∃ tmpDirName, k = path_join TESTCAFE_TMP_DIRS_ROOT tmpDirName.

(** [tmpDirName] is listed in the pool root. *)
Definition pool_entry (f : FS) (tmpDirName : string) : Prop :=
  ∃ r wr es, nodes f !! TESTCAFE_TMP_DIRS_ROOT = Some (Dir r wr es) ∧ tmpDirName ∈ es.

(** Every object of the registry sits under a path of the pool whose last
    segment starts with the prefix of the object. *)
Definition registry_named (w : World) : Prop :=
  ∀ k v, (k, v) ∈ USED_TEMP_DIRS (proc w) →
    ∃ tmpDirName, k = path_join TESTCAFE_TMP_DIRS_ROOT tmpDirName ∧
                  startsWith (basename tmpDirName) (namePrefix v) = true.

(** A process starts with an empty registry and has created no file yet. *)
Definition initial (w : World) : Prop :=
  USED_TEMP_DIRS (proc w) = [] ∧ ∀ p, nodes (fs w) !! p ≠ Some (File (pid (proc w))).

(** The worlds one process reaches through the public operations, no other
    process running in between. *)
Inductive reachable : World → Prop :=
| reachable_initial w :
    initial w → reachable w
| reachable_createDirectory w prefix r w' :
    reachable w → createDirectory prefix w = (r, w') → reachable w'
| reachable_dispose w a r w' :
    reachable w → obj_wf a → dispose a w = (r, w') → reachable w'
| reachable_disposeDirectories w r w' :
    reachable w → disposeDirectories w = (r, w') → reachable w'.

(** The executions in which every allocation ends up holding the lock of
    its directory. *)
Inductive locked_run : World → Prop :=
| locked_run_initial w :
    initial w → locked_run w
| locked_run_createDirectory w prefix r w' :
    locked_run w → createDirectory prefix w = (r, w') →
    (∀ a, r = Ok a → holds_lock w' (path a)) → locked_run w'
| locked_run_dispose w a r w' :
    locked_run w → obj_wf a → dispose a w = (r, w') → locked_run w'
| locked_run_disposeDirectories w r w' :
    locked_run w → disposeDirectories w = (r, w') → locked_run w'.

(** The executions in which every prefix is a single path segment, as the
    interface asks, and so is every suffix the [tmp] package draws. *)
Inductive plain_run : World → Prop :=
| plain_run_initial w :
    initial w → plain_run w
| plain_run_createDirectory w prefix r w' :
    plain_run w → plain prefix = true → (∀ n, plain (tmp_random (proc w) n) = true) →
    createDirectory prefix w = (r, w') → plain_run w'
| plain_run_dispose w a r w' :
    plain_run w → obj_wf a → dispose a w = (r, w') → plain_run w'
| plain_run_disposeDirectories w r w' :
    plain_run w → disposeDirectories w = (r, w') → plain_run w'.

(** *** [init] cut at the [await] of [_createNewTmpDir]

    Between [await ensureDir(this.path)] and [this.lockFile.init()] the
    process yields; the two halves below are what runs before and after. *)

Definition _createNewTmpDir_before_await (this : TempDirectory) : M TempDirectory :=
  p ← tmpNameSync TESTCAFE_TMP_DIRS_ROOT (namePrefix this +:+ "-");
  let this := set_path p this in
  ensureDir (path this);;
  mret this.

Definition _createNewTmpDir_after_await (this : TempDirectory) : M TempDirectory :=
  let lockFile := LockFile_new (path this) in
  let this := set_lockFile (Some lockFile) this in
  LockFile_init lockFile;;
  mret this.

Definition init_before_await (this : TempDirectory) : M (TempDirectory * bool) :=
  ensureDir TESTCAFE_TMP_DIRS_ROOT;;
  tmpDirNames ← _getTmpDirsList this;
  '(this, existingTmpDirFound) ← _findFreeTmpDir this tmpDirNames;
  if existingTmpDirFound : bool then mret (this, true)
  else this ← _createNewTmpDir_before_await this; mret (this, false).

Definition init_after_await (s : TempDirectory * bool) : M TempDirectory :=
  this ← (if s.2 then mret s.1 else _createNewTmpDir_after_await s.1);
  registry_assign (path this) this;;
  mret this.

(** *** Sample worlds *)

Definition sample_random (n : nat) : string :=
  match n with 0 => "aaa" | 1 => "bbb" | 2 => "ccc" | _ => "zzz" end.

Definition sample_proc (me : Pid) : Proc := mkProc me [] [] sample_random 0.

(** Only the system's temporary directory exists. *)
Definition fs_no_pool : FS :=
  mkFS {[ "/tmp" := Dir true true [] ]} 16.

(** The pool holds one unlocked directory, [worker-abc]. *)
Definition fs_pool_abc : FS :=
  mkFS (<[ "/tmp/testcafe-tmp/worker-abc" := Dir true true [] ]>
        (<[ "/tmp/testcafe-tmp" := Dir true true ["worker-abc"] ]>
         {[ "/tmp" := Dir true true ["testcafe-tmp"] ]})) 16.

(** The pool is empty. *)
Definition fs_empty_pool (inodes : nat) : FS :=
  mkFS (<[ "/tmp/testcafe-tmp" := Dir true true [] ]>
        {[ "/tmp" := Dir true true ["testcafe-tmp"] ]}) inodes.

(** The pool exists but this user may not list it. *)
Definition fs_unreadable_pool : FS :=
  mkFS (<[ "/tmp/testcafe-tmp" := Dir false true [] ]>
        {[ "/tmp" := Dir true true ["testcafe-tmp"] ]}) 16.

(** The pool holds [worker-abc], locked by process 3. *)
Definition fs_pool_abc_locked : FS :=
  mkFS (<[ "/tmp/testcafe-tmp/worker-abc/.testcafe-lockfile" := File 3 ]>
        (<[ "/tmp/testcafe-tmp/worker-abc" := Dir true true [".testcafe-lockfile"] ]>
         (<[ "/tmp/testcafe-tmp" := Dir true true ["worker-abc"] ]>
          {[ "/tmp" := Dir true true ["testcafe-tmp"] ]}))) 16.

Definition sample_world (f : FS) (me : Pid) : World := mkWorld f (sample_proc me).

(** Process 7 has claimed [worker-abc] in [fs_pool_abc]. *)
Definition worker_abc : TempDirectory :=
  mkTempDirectory "worker" "/tmp/testcafe-tmp/worker-abc"
    (Some (mkLockFile "/tmp/testcafe-tmp/worker-abc/.testcafe-lockfile")).

Definition world_abc_claimed : World :=
  mkWorld
    (mkFS (<[ "/tmp/testcafe-tmp/worker-abc/.testcafe-lockfile" := File 7 ]>
           (<[ "/tmp/testcafe-tmp/worker-abc" := Dir true true [".testcafe-lockfile"] ]>
            (<[ "/tmp/testcafe-tmp" := Dir true true ["worker-abc"] ]>
             {[ "/tmp" := Dir true true ["testcafe-tmp"] ]}))) 15)
    (mkProc 7 [("/tmp/testcafe-tmp/worker-abc", worker_abc)] [] sample_random 0).

(** Process 7 has allocated in an empty pool with a single inode left: the
    directory took it, the marker could not be created. *)
Definition worker_aaa : TempDirectory :=
  mkTempDirectory "worker" "/tmp/testcafe-tmp/worker-aaa"
    (Some (mkLockFile "/tmp/testcafe-tmp/worker-aaa/.testcafe-lockfile")).

Definition world_aaa_unlocked : World :=
  mkWorld
    (mkFS (<[ "/tmp/testcafe-tmp/worker-aaa" := Dir true true [] ]>
           (<[ "/tmp/testcafe-tmp" := Dir true true ["worker-aaa"] ]>
            {[ "/tmp" := Dir true true ["testcafe-tmp"] ]})) 0)
    (mkProc 7 [("/tmp/testcafe-tmp/worker-aaa", worker_aaa)] [] sample_random 1).

(** ** Paths *)

Lemma append_cons c s t : String c s +:+ t = String c (s +:+ t).
Proof. reflexivity. Qed.

Lemma split_last_sep_plain b : plain b = true → split_last_sep b = (None, b).
Proof.
  induction b as [|c b IH]; simpl; [done|].
  intros [Hc Hb]%andb_true_iff. rewrite (IH Hb).
  by destruct (is_sep c).
Qed.

Lemma split_last_sep_app d b :
  plain b = true → split_last_sep (d +:+ String sep b) = (Some d, b).
Proof.
  intros Hb. induction d as [|c d IH].
  - change ("" +:+ String sep b) with (String sep b). simpl.
    by rewrite (split_last_sep_plain b Hb).
  - rewrite append_cons. simpl. by rewrite IH.
Qed.

Lemma strip_trailing_seps_plain b : plain b = true → strip_trailing_seps b = b.
Proof.
  induction b as [|c b IH]; simpl; [done|].
  intros [Hc Hb]%andb_true_iff. rewrite (IH Hb).
  destruct b; [|done]. by destruct (is_sep c).
Qed.

Lemma basename_plain b : plain b = true → basename b = b.
Proof.
  intros Hb. unfold basename.
  by rewrite (strip_trailing_seps_plain b Hb), (split_last_sep_plain b Hb).
Qed.

Lemma path_join_nonempty a b : a ≠ "" → path_join a b ≠ "".
Proof.
  intros Ha. unfold path_join. repeat case_bool_decide; try done.
  by destruct a.
Qed.

Lemma ROOT_nonempty : TESTCAFE_TMP_DIRS_ROOT ≠ "".
Proof.
  unfold TESTCAFE_TMP_DIRS_ROOT, path_join. repeat case_bool_decide; try done.
  by destruct os_tmpdir.
Qed.

Lemma pool_path_nonempty tmpDirName : path_join TESTCAFE_TMP_DIRS_ROOT tmpDirName ≠ "".
Proof. apply path_join_nonempty, ROOT_nonempty. Qed.

Lemma marker_of_eq d : d ≠ "" → marker_of d = d +:+ String sep LOCKFILE_NAME.
Proof.
  intros Hd. unfold marker_of, LockFile_new, path_join. simpl.
  by rewrite bool_decide_eq_false_2.
Qed.

Lemma marker_split d : d ≠ "" → split_last_sep (marker_of d) = (Some d, LOCKFILE_NAME).
Proof. intros Hd. rewrite (marker_of_eq d Hd). by apply split_last_sep_app. Qed.

Lemma marker_of_inj d k : k ≠ "" → marker_of d = marker_of k → d = k.
Proof.
  intros Hk Heq. destruct (decide (d = "")) as [->|Hd].
  - pose proof (marker_split k Hk) as Hs. rewrite <- Heq in Hs. discriminate Hs.
  - pose proof (marker_split k Hk) as Hs. rewrite <- Heq, (marker_split d Hd) in Hs.
    by inversion Hs.
Qed.

Lemma plain_app a b : plain (a +:+ b) = plain a && plain b.
Proof.
  induction a as [|c a IH]; [done|].
  rewrite append_cons. simpl. by rewrite IH, andb_assoc.
Qed.

Lemma pool_path_split tmpDirName :
  tmpDirName ≠ "" → plain tmpDirName = true →
  split_last_sep (path_join TESTCAFE_TMP_DIRS_ROOT tmpDirName)
  = (Some TESTCAFE_TMP_DIRS_ROOT, tmpDirName).
Proof.
  intros Hne Hplain. unfold path_join.
  rewrite (bool_decide_eq_false_2 _ ROOT_nonempty), bool_decide_eq_false_2 by done.
  by apply split_last_sep_app.
Qed.


Lemma nonempty_length s : s ≠ "" → ∃ n, String.length s = S n.
Proof. destruct s; [done|]. by eexists. Qed.

(** *** [path_join] and [path.join] *)

Lemma split_sep_plain b : plain b = true → split_sep b = [b].
Proof.
  induction b as [|c b IH]; simpl; [done|].
  intros [Hc Hb]%andb_true_iff. rewrite (IH Hb).
  by destruct (is_sep c).
Qed.

Lemma split_sep_nonempty s : split_sep s ≠ [].
Proof.
  destruct s as [|c s]; simpl; [done|].
  destruct (is_sep c); [done|]. by destruct (split_sep s).
Qed.

Lemma split_sep_app a b :
  plain b = true → split_sep (a +:+ String sep b) = split_sep a ++ [b].
Proof.
  intros Hb. induction a as [|c a IH].
  - change ("" +:+ String sep b) with (String sep b). simpl.
    by rewrite (split_sep_plain b Hb).
  - rewrite append_cons. simpl. rewrite IH.
    destruct (is_sep c); [done|].
    pose proof (split_sep_nonempty a). by destruct (split_sep a).
Qed.

Lemma trailingSeparator_plain b : plain b = true → trailingSeparator b = false.
Proof.
  induction b as [|c b IH]; simpl; [done|].
  intros [Hc Hb]%andb_true_iff. destruct b; [by destruct (is_sep c)|by apply IH].
Qed.

Lemma trailingSeparator_app a b :
  b ≠ "" → trailingSeparator (a +:+ b) = trailingSeparator b.
Proof.
  intros Hb. induction a as [|c a IH]; [done|].
  rewrite append_cons. simpl. rewrite IH.
  destruct (a +:+ b) eqn:Hab; [|done].
  destruct a; [|done]. by destruct b.
Qed.

Lemma trailingSeparator_join a b :
  plain b = true → b ≠ "" → trailingSeparator (a +:+ String sep b) = false.
Proof.
  intros Hplain Hb. rewrite trailingSeparator_app by done.
  destruct b as [|c b]; [done|]. by apply (trailingSeparator_plain (String c b)).
Qed.

Lemma join_sep_snoc l b :
  l ≠ [] → join_sep (l ++ [b]) = join_sep l +:+ String sep b.
Proof.
  induction l as [|x l IH]; [done|]. intros _.
  destruct l as [|y l]; [done|].
  change (join_sep ((x :: y :: l) ++ [b]))
    with (x +:+ String sep (join_sep ((y :: l) ++ [b]))).
  rewrite IH by done.
  change (join_sep (x :: y :: l)) with (x +:+ String sep (join_sep (y :: l))).
  generalize (join_sep (y :: l)). intros t.
  induction x as [|c x IHx]; [done|]. rewrite !append_cons. by rewrite IHx.
Qed.

Lemma append_nil_r s : s +:+ "" = s.
Proof. induction s as [|c s IH]; [done|]. by rewrite append_cons, IH. Qed.

(** On a normalised absolute directory and a segment that names an entry,
    [path_join] is [path.join], and the result is such a directory again:
    the paths the module builds from [os.tmpdir()], the name of the pool,
    the names of its entries and the name of the marker stay within these
    arguments. *)
Lemma path_join_is_posix_join a b :
  normal_dir a = true → proper_segment b = true →
  posix_join a b = path_join a b ∧ normal_dir (path_join a b) = true.
Proof.
  unfold normal_dir, proper_segment.
  intros [[Habs Htr%negb_true_iff]%andb_true_iff Hnorm%bool_decide_eq_true]%andb_true_iff.
  intros [[[Hplain Hne%negb_true_iff%bool_decide_eq_false]%andb_true_iff
             Hdot%negb_true_iff%bool_decide_eq_false]%andb_true_iff
            Hdots%negb_true_iff%bool_decide_eq_false]%andb_true_iff.
  assert (a ≠ "") as Ha by (by destruct a).
  assert (isAbsolute (a +:+ String sep b) = true) as Habs' by (by destruct a).
  pose proof (trailingSeparator_join a b Hplain Hne) as Htr'.
  assert (posix_normalize (a +:+ String sep b) = a +:+ String sep b) as Hjoin.
  { unfold posix_normalize in *.
    rewrite bool_decide_eq_false_2 in Hnorm by done.
    rewrite bool_decide_eq_false_2 by (by destruct a).
    rewrite Habs', Htr'. rewrite Habs, Htr in Hnorm. simpl in Hnorm.
    unfold normalizeString in *. rewrite (split_sep_app a b Hplain), foldl_app. simpl.
    set (res := foldl (normalize_step false) [] (split_sep a)) in *.
    assert (normalize_step false res b = b :: res) as ->.
    { unfold normalize_step. by rewrite !bool_decide_eq_false_2. }
    simpl. case_bool_decide as Hres.
    { rewrite <- Hnorm in Htr. done. }
    rewrite append_nil_r in Hnorm.
    assert (rev res ≠ []) as Hrev by (intros Heq; by rewrite Heq in Hres).
    rewrite (join_sep_snoc _ _ Hrev).
    rewrite bool_decide_eq_false_2.
    2:{ by destruct (join_sep (rev res)). }
    rewrite append_nil_r, <- Hnorm. done. }
  assert (path_join a b = a +:+ String sep b) as Hpj.
  { unfold path_join. by rewrite !bool_decide_eq_false_2. }
  split.
  - unfold posix_join. rewrite !bool_decide_eq_false_2 by done. by rewrite Hpj.
  - by rewrite Hpj, Hjoin, Habs', Htr', bool_decide_eq_true_2.
Qed.

(** A prefix that is a single segment gives, with a suffix that is one, the
    name of an entry. *)
Lemma fresh_name_proper prefix suffix :
  plain prefix = true → plain suffix = true →
  proper_segment ((prefix +:+ "-") +:+ suffix) = true.
Proof.
  intros Hp Hs. unfold proper_segment. rewrite !plain_app, Hp, Hs.
  assert ((prefix +:+ "-") +:+ suffix ≠ "" ∧ (prefix +:+ "-") +:+ suffix ≠ "." ∧
          (prefix +:+ "-") +:+ suffix ≠ "..") as (H0 & H1 & H2).
  { destruct prefix as [|c [|c' prefix]]; [done|done|].
    split_and!; [done|done|]. rewrite !append_cons. intros [= _ _ Heq].
    by destruct prefix. }
  by rewrite !bool_decide_eq_false_2.
Qed.

(** The whole chain of joins of the module, for a normalised absolute
    [os.tmpdir()] and an entry name: the pool root, the directory and its
    marker are the paths [path.join] builds. *)
Lemma module_paths_are_posix_joins tmpDirName :
  normal_dir os_tmpdir = true → proper_segment tmpDirName = true →
  TESTCAFE_TMP_DIRS_ROOT = posix_join os_tmpdir "testcafe-tmp" ∧
  path_join TESTCAFE_TMP_DIRS_ROOT tmpDirName
    = posix_join (posix_join os_tmpdir "testcafe-tmp") tmpDirName ∧
  marker_of (path_join TESTCAFE_TMP_DIRS_ROOT tmpDirName)
    = posix_join (posix_join (posix_join os_tmpdir "testcafe-tmp") tmpDirName)
        LOCKFILE_NAME.
Proof.
  intros Htmp Hname.
  destruct (path_join_is_posix_join os_tmpdir "testcafe-tmp" Htmp eq_refl) as [Hr Hrn].
  fold TESTCAFE_TMP_DIRS_ROOT in Hr, Hrn.
  destruct (path_join_is_posix_join _ tmpDirName Hrn Hname) as [Hd Hdn].
  destruct (path_join_is_posix_join _ LOCKFILE_NAME Hdn eq_refl) as [Hm _].
  unfold marker_of, LockFile_new. simpl. by rewrite Hr, Hd, Hm.
Qed.

(** ** The file-system calls *)

Lemma fs_create_inr p n f f' :
  fs_create p n f = inr f' →
  ∃ d b r es k,
    split_last_sep p = (Some d, b) ∧ nodes f !! d = Some (Dir r true es) ∧
    free_inodes f = S k ∧
    f' = mkFS (<[p := n]> (<[d := Dir r true (es ++ [b])]> (nodes f))) k.
Proof.
  unfold fs_create. destruct (split_last_sep p) as [[d|] b]; [|done].
  destruct (nodes f !! d) as [[c|r [] es]|] eqn:Hd; simpl; try done.
  destruct (free_inodes f) as [|k] eqn:Hk; [done|].
  intros [= <-]. by exists d, b, r, es, k.
Qed.

Lemma fs_unlink_inr p f f' :
  fs_unlink p f = inr f' →
  ∃ c d b r es,
    nodes f !! p = Some (File c) ∧ split_last_sep p = (Some d, b) ∧
    nodes f !! d = Some (Dir r true es) ∧
    f' = mkFS (delete p (<[d := Dir r true (filter (λ e, e ≠ b) es)]> (nodes f)))
              (S (free_inodes f)).
Proof.
  unfold fs_unlink. destruct (nodes f !! p) as [[c|? ? ?]|] eqn:Hp; try done.
  destruct (split_last_sep p) as [[d|] b]; [|done].
  destruct (nodes f !! d) as [[c'|r [] es]|] eqn:Hd; simpl; try done.
  intros [= <-]. by exists c, d, b, r, es.
Qed.

(** Creating a node at an absent path touches that path and the entries of
    its parent, nothing else. *)
Lemma fs_create_lookup p n f f' q :
  nodes f !! p = None → fs_create p n f = inr f' →
  nodes f' !! q =
    if decide (q = p) then Some n
    else match nodes f !! q, split_last_sep p with
         | Some (Dir r w es), (Some d, b) =>
             if decide (q = d) then Some (Dir r w (es ++ [b])) else Some (Dir r w es)
         | o, _ => o
         end.
Proof.
  intros Hp (d & b & r & es & k & Hs & Hd & Hk & ->)%fs_create_inr. simpl.
  rewrite Hs. destruct (decide (q = p)) as [->|Hqp].
  - by rewrite lookup_insert_eq.
  - rewrite lookup_insert_ne by done.
    destruct (decide (q = d)) as [->|Hqd].
    + by rewrite lookup_insert_eq, Hd.
    + rewrite lookup_insert_ne by done.
      by destruct (nodes f !! q) as [[?|? ? ?]|].
Qed.

Lemma fs_create_writable_dir p n f f' k :
  nodes f !! p = None → fs_create p n f = inr f' →
  writable_dir f k → writable_dir f' k.
Proof.
  intros Hp Hc (r & es & Hk). unfold writable_dir.
  rewrite (fs_create_lookup p n f f' k Hp Hc).
  destruct (decide (k = p)) as [->|_]; [congruence|].
  rewrite Hk. destruct (split_last_sep p) as [[d|] b]; [|eauto].
  destruct (decide (k = d)); eauto.
Qed.

Lemma fs_create_is_dir p n f f' q :
  nodes f !! p = None → fs_create p n f = inr f' →
  is_dir (nodes f' !! q) = if decide (q = p) then is_dir (Some n) else is_dir (nodes f !! q).
Proof.
  intros Hp Hc. rewrite (fs_create_lookup p n f f' q Hp Hc).
  destruct (decide (q = p)); [done|].
  destruct (nodes f !! q) as [[?|? ? ?]|]; try done.
  destruct (split_last_sep p) as [[d|] b]; [|done]. by destruct (decide (q = d)).
Qed.

Lemma fs_create_file p n f f' q c :
  nodes f !! p = None → fs_create p n f = inr f' →
  nodes f' !! q = Some (File c) ↔
  (q = p ∧ n = File c) ∨ (q ≠ p ∧ nodes f !! q = Some (File c)).
Proof.
  intros Hp Hc. rewrite (fs_create_lookup p n f f' q Hp Hc).
  destruct (decide (q = p)) as [->|Hq].
  - split; [intros [= ->]; by left|]. intros [[_ ->]|[? _]]; done.
  - destruct (nodes f !! q) as [[?|? ? ?]|] eqn:Hn.
    + split; [by right|]. by intros [[? _]|[_ ?]].
    + destruct (split_last_sep p) as [[d|] b]; [destruct (decide (q = d))|];
        (split; [done|]; by intros [[? _]|[_ ?]]).
    + split; [done|]. by intros [[? _]|[_ ?]].
Qed.

(** Unlinking a file touches that path and the entries of its parent. *)
Lemma fs_unlink_lookup p f f' q :
  fs_unlink p f = inr f' →
  nodes f' !! q =
    if decide (q = p) then None
    else match nodes f !! q, split_last_sep p with
         | Some (Dir r w es), (Some d, b) =>
             if decide (q = d) then Some (Dir r w (filter (λ e, e ≠ b) es))
             else Some (Dir r w es)
         | o, _ => o
         end.
Proof.
  intros (c & d & b & r & es & Hp & Hs & Hd & ->)%fs_unlink_inr. simpl.
  rewrite Hs. destruct (decide (q = p)) as [->|Hqp].
  - by rewrite lookup_delete_eq.
  - rewrite lookup_delete_ne by done.
    destruct (decide (q = d)) as [->|Hqd].
    + by rewrite lookup_insert_eq, Hd.
    + rewrite lookup_insert_ne by done.
      by destruct (nodes f !! q) as [[?|? ? ?]|].
Qed.

Lemma fs_unlink_writable_dir p f f' k :
  fs_unlink p f = inr f' → writable_dir f k → writable_dir f' k.
Proof.
  intros Hu (r & es & Hk). unfold writable_dir.
  rewrite (fs_unlink_lookup p f f' k Hu).
  destruct (fs_unlink_inr _ _ _ Hu) as (c & d & b & ? & ? & Hp & Hs & _).
  destruct (decide (k = p)) as [->|_]; [congruence|].
  rewrite Hk, Hs. destruct (decide (k = d)); eauto.
Qed.

Lemma fs_unlink_is_dir p f f' q :
  fs_unlink p f = inr f' → is_dir (nodes f' !! q) = is_dir (nodes f !! q).
Proof.
  intros Hu. rewrite (fs_unlink_lookup p f f' q Hu).
  destruct (fs_unlink_inr _ _ _ Hu) as (c & d & b & ? & ? & Hp & Hs & _).
  destruct (decide (q = p)) as [->|_]; [by rewrite Hp|].
  destruct (nodes f !! q) as [[?|? ? ?]|]; try done.
  rewrite Hs. by destruct (decide (q = d)).
Qed.

Lemma fs_unlink_file p f f' q c :
  fs_unlink p f = inr f' →
  nodes f' !! q = Some (File c) ↔ q ≠ p ∧ nodes f !! q = Some (File c).
Proof.
  intros Hu. rewrite (fs_unlink_lookup p f f' q Hu).
  destruct (fs_unlink_inr _ _ _ Hu) as (c' & d & b & ? & ? & Hp & Hs & _).
  destruct (decide (q = p)) as [->|Hq]; [split; [done|by intros [? _]]|].
  destruct (nodes f !! q) as [[?|? ? ?]|]; [|rewrite Hs; destruct (decide (q = d))|];
    (split; [by intros ?|by intros [_ ?]]).
Qed.

(** A failed unlink of a file means its directory is not writable. *)
Lemma fs_unlink_inl p f e d :
  fs_unlink p f = inl e → split_last_sep p = (Some d, LOCKFILE_NAME) →
  writable_dir f d → is_file (nodes f !! p) = false.
Proof.
  unfold fs_unlink. intros Hu Hs (r & es & Hd).
  destruct (nodes f !! p) as [[c|? ? ?]|]; try done.
  by rewrite Hs, Hd in Hu.
Qed.

Lemma fs_mkdir_inr p f f' :
  fs_mkdir p f = inr f' → nodes f !! p = None ∧ fs_create p (Dir true true []) f = inr f'.
Proof. unfold fs_mkdir. by destruct (nodes f !! p). Qed.

(** [mkdir -p] only adds directories: files and writable directories stay
    as they are, and the path is a directory afterwards. *)
Lemma fs_mkdirp_inr fuel p f f' :
  fs_mkdirp fuel p f = inr f' →
  (∀ k, writable_dir f k → writable_dir f' k) ∧
  (∀ q c, nodes f' !! q = Some (File c) ↔ nodes f !! q = Some (File c)) ∧
  (∀ q, is_dir (nodes f !! q) = true → is_dir (nodes f' !! q) = true) ∧
  is_dir (nodes f' !! p) = true ∧
  (nodes f !! p = None → nodes f' !! p = Some (Dir true true [])).
Proof.
  revert p f f'. induction fuel as [|fuel IH]; intros p f f'; simpl.
  - destruct (nodes f !! p) as [[c|r w es]|] eqn:Hp; try done.
    intros [= <-]. by rewrite Hp.
  - destruct (nodes f !! p) as [[c|r w es]|] eqn:Hp; try done.
    { intros [= <-]. by rewrite Hp. }
    destruct (split_last_sep p) as [[d|] b]; [|done].
    destruct (fs_mkdirp fuel d f) as [e|f1] eqn:Hd; [done|].
    intros [Hp1 Hc]%fs_mkdir_inr.
    destruct (IH _ _ _ Hd) as (IHw & IHf & IHd & _ & _).
    split_and!.
    + intros k Hk. eapply fs_create_writable_dir; eauto.
    + intros q c. rewrite (fs_create_file _ _ _ _ q c Hp1 Hc), <- IHf.
      split; [intros [[_ ?]|[_ ?]]; done|].
      intros Hq. right. split; [|done]. intros ->. congruence.
    + intros q Hq. rewrite (fs_create_is_dir _ _ _ _ q Hp1 Hc).
      destruct (decide (q = p)); [done|]. by apply IHd.
    + rewrite (fs_create_is_dir _ _ _ _ p Hp1 Hc). by rewrite decide_True.
    + intros _. rewrite (fs_create_lookup _ _ _ _ p Hp1 Hc). by rewrite decide_True.
Qed.

(** ** Computations *)

Lemma bind_Ok {A B} (m : M A) (k : A → M B) w a w' :
  m w = (Ok a, w') → (m ≫= k) w = k a w'.
Proof. intros H. unfold mbind, M_bind. by rewrite H. Qed.

Lemma set_fs_id w : set_fs (fs w) w = w.
Proof. by destruct w. Qed.

(** *** [LockFile] *)

(** [init] opens and closes at once, so that only the file system keeps a
    trace of it. *)
Lemma LockFile_init_eq this w :
  LockFile_init this w =
    match fs_open_excl (pid (proc w)) (lf_path this) (fs w) with
    | inr f' => (Ok true, set_fs f' w)
    | inl _ => (Ok false, w)
    end.
Proof.
  unfold LockFile_init, try_catch, mbind, M_bind, openSync_wx, closeSync.
  destruct w as [f [me reg fds rnd n]]; simpl.
  destruct (fs_open_excl me (lf_path this) f) as [e|f']; simpl; [done|].
  rewrite bool_decide_eq_true_2 by apply list_elem_of_here. simpl.
  by rewrite bool_decide_eq_true_2.
Qed.

Lemma LockFile_dispose_eq this w :
  LockFile_dispose this w =
    (Ok tt, match fs_unlink (lf_path this) (fs w) with
            | inr f' => set_fs f' w
            | inl _ => w
            end).
Proof.
  unfold LockFile_dispose, try_catch, unlinkSync.
  by destruct (fs_unlink (lf_path this) (fs w)).
Qed.

Lemma creatable_fs_create p n f :
  creatable f p ↔ nodes f !! p = None ∧ ∃ f', fs_create p n f = inr f'.
Proof.
  split.
  - intros (Hp & (d & b & r & es & Hs & Hd) & Hfree). split; [done|].
    unfold fs_create. rewrite Hs, Hd. simpl.
    destruct (free_inodes f); [lia|by eexists].
  - intros (Hp & f' & (d & b & r & es & k & Hs & Hd & Hk & _)%fs_create_inr).
    split_and!; [done|by exists d, b, r, es|lia].
Qed.

(** C5.  [LockFile.init] never throws and leaves the process as it was.
    It answers [true] exactly when the marker can be created: nothing is at
    its path, its directory can be written to and an inode is left.  This
    call has then created it: the marker did not exist before and exists
    afterwards as a file created by this process, entered in its directory
    at the cost of one inode, the rest of the file system being as before.
    It answers [false] when the marker existed or could not be created, and
    then the world is left as it was; in particular an existing marker is
    never overwritten. *)
Theorem LockFile_init_exclusive_create (this : LockFile) (w : World) :
  ∃ (acquired : bool) (w' : World),
    LockFile_init this w = (Ok acquired, w') ∧
    proc w' = proc w ∧
    (acquired = true ↔ creatable (fs w) (lf_path this)) ∧
    (acquired = true ↔
       nodes (fs w) !! lf_path this = None ∧
       nodes (fs w') !! lf_path this = Some (File (pid (proc w)))) ∧
    (acquired = true →
       ∃ d b r es,
         split_last_sep (lf_path this) = (Some d, b) ∧
         nodes (fs w) !! d = Some (Dir r true es) ∧
         nodes (fs w') = <[lf_path this := File (pid (proc w))]>
                           (<[d := Dir r true (es ++ [b])]> (nodes (fs w))) ∧
         S (free_inodes (fs w')) = free_inodes (fs w)) ∧
    (acquired = false → w' = w) ∧
    (∀ n, nodes (fs w) !! lf_path this = Some n →
          acquired = false ∧ nodes (fs w') !! lf_path this = Some n).
Proof.
  rewrite LockFile_init_eq. unfold fs_open_excl.
  destruct (nodes (fs w) !! lf_path this) as [n|] eqn:Hn.
  - exists false, w. split_and!; try done.
    + split; [done|]. intros [Hnone _]. congruence.
    + split; [done|]. by intros [? _].
    + intros n' [= <-]. by rewrite Hn.
  - destruct (fs_create (lf_path this) (File (pid (proc w))) (fs w)) as [e|f'] eqn:Hc.
    + exists false, w. split_and!; try done.
      * split; [done|].
        intros [_ [f' Hf']]%(creatable_fs_create _ (File (pid (proc w)))). congruence.
      * split; [done|]. rewrite Hn. by intros [_ ?].
    + exists true, (set_fs f' w). split_and!; try done.
      * split; [|done]. intros _.
        apply (creatable_fs_create _ (File (pid (proc w)))). split; [done|by exists f'].
      * split; [|done]. intros _. split; [done|]. simpl.
        rewrite (fs_create_lookup _ _ _ _ (lf_path this) Hn Hc). by rewrite decide_True.
      * intros _. apply fs_create_inr in Hc as (d & b & r & es & k & Hs & Hd & Hk & ->).
        exists d, b, r, es. simpl. by split_and!.
Qed.

(** Once a process has created the marker, no process creates it again
    while it is there: each later [init] on it answers [false]. *)
Lemma marker_is_exclusive (this : LockFile) (w w' : World) (other : Proc) :
  LockFile_init this w = (Ok true, w') →
  LockFile_init this (switch_to other w') = (Ok false, switch_to other w').
Proof.
  rewrite !LockFile_init_eq. unfold fs_open_excl at 1.
  destruct (nodes (fs w) !! lf_path this) eqn:Hn; [done|].
  destruct (fs_create _ _ _) as [e|f'] eqn:Hc; [done|].
  intros [= <-]. unfold fs_open_excl. simpl.
  rewrite (fs_create_lookup _ _ _ _ (lf_path this) Hn Hc). by rewrite decide_True.
Qed.

(** *** The registry object *)

Lemma own_get_js_set k v r k' :
  own_get k' (js_set k v r) = if decide (k' = k) then Some v else own_get k' r.
Proof.
  induction r as [|[k0 v0] r IH]; simpl.
  - case_bool_decide; by case_decide.
  - repeat (case_bool_decide; simpl); case_decide; subst; rewrite ?IH;
      try done; try congruence; by case_decide.
Qed.

Lemma own_get_js_delete k r k' :
  own_get k' (js_delete k r) = if decide (k' = k) then None else own_get k' r.
Proof.
  induction r as [|[k0 v0] r IH]; simpl.
  - by case_decide.
  - repeat (case_bool_decide; simpl); case_decide; subst; rewrite ?IH;
      try done; try congruence; by case_decide.
Qed.

Lemma elem_of_js_set k v r k' v' :
  (k', v') ∈ js_set k v r → (k', v') = (k, v) ∨ (k', v') ∈ r.
Proof.
  induction r as [|[k0 v0] r IH]; simpl.
  - intros ->%list_elem_of_singleton. by left.
  - case_bool_decide; subst.
    + intros [->|Hin]%elem_of_cons; [by left|]. right. by apply list_elem_of_further.
    + intros [->|Hin]%elem_of_cons; [right; apply list_elem_of_here|].
      destruct (IH Hin) as [?|?]; [by left|]. right. by apply list_elem_of_further.
Qed.

Lemma elem_of_js_delete k r k' v' :
  (k', v') ∈ js_delete k r ↔ k' ≠ k ∧ (k', v') ∈ r.
Proof.
  unfold js_delete. rewrite list_elem_of_In, filter_In, <- list_elem_of_In. simpl.
  rewrite negb_true_iff, bool_decide_eq_false. tauto.
Qed.

Lemma own_get_Some_elem_of k v r : own_get k r = Some v → (k, v) ∈ r.
Proof.
  induction r as [|[k0 v0] r IH]; simpl; [done|].
  case_bool_decide; subst.
  - intros [= ->]. apply list_elem_of_here.
  - intros ?. by apply list_elem_of_further, IH.
Qed.

Lemma elem_of_own_get k v r : (k, v) ∈ r → is_Some (own_get k r).
Proof.
  induction r as [|[k0 v0] r IH]; simpl; [by intros ?%elem_of_nil|].
  case_bool_decide; subst; [by eauto|].
  intros [[= -> ->]|?]%elem_of_cons; [done|]. by apply IH.
Qed.

Lemma js_delete_absent k r : own_get k r = None → js_delete k r = r.
Proof.
  unfold js_delete. induction r as [|[k0 v0] r IH]; simpl; [done|].
  case_bool_decide; simpl; [done|]. intros ?. by rewrite IH.
Qed.

(** *** The calls of the module, one by one *)

Lemma fs_mkdirp_dir fuel p f : is_dir (nodes f !! p) = true → fs_mkdirp fuel p f = inr f.
Proof. destruct fuel; simpl; by destruct (nodes f !! p) as [[?|? ? ?]|]. Qed.

Lemma ensureDir_eq p w :
  ensureDir p w =
    match fs_mkdirp (String.length p) p (fs w) with
    | inl e => (Throw (FsError e), w)
    | inr f' => (Ok tt, set_fs f' w)
    end.
Proof. done. Qed.

Lemma ensureDir_dir p w : is_dir (nodes (fs w) !! p) = true → ensureDir p w = (Ok tt, w).
Proof. intros Hp. by rewrite ensureDir_eq, (fs_mkdirp_dir _ _ _ Hp), set_fs_id. Qed.

(** [tmpNameSync] only moves the random source on; a name it returns is
    [dir/prefix<suffix>] for a drawn suffix, and no such path exists. *)
Lemma tmpName_tries_spec tries dir prefix w r w' :
  tmpName_tries tries dir prefix w = (r, w') →
  (∃ n, w' = set_tmp_drawn n w) ∧
  (∀ p, r = Ok p →
        nodes (fs w) !! p = None ∧
        ∃ n, p = path_join dir (prefix +:+ tmp_random (proc w) n)).
Proof.
  revert w. induction tries as [|t IH]; intros w; simpl.
  - intros [= <- <-]. split; [|done]. exists (tmp_drawn (proc w)). by destruct w as [f []].
  - destruct (nodes (fs w) !! _) as [nd|] eqn:Hn.
    + intros [[n ->] Hr]%IH. split; [by exists n|].
      intros p Hp. destruct (Hr p Hp) as [? [m ->]]. split; [done|]. by exists m.
    + intros [= <- <-]. split; [by eexists|].
      intros p [= <-]. split; [done|]. by eexists.
Qed.

Lemma filterM_registry_truthy l w :
  filterM (λ tmpDir, used ← registry_truthy tmpDir; mret (negb used)) l w =
    (Ok (List.filter (λ tmpDir, negb (js_truthy_get (USED_TEMP_DIRS (proc w)) tmpDir)) l), w).
Proof.
  induction l as [|x l IH]; [done|].
  cbn [filterM].
  rewrite (bind_Ok _ _ w (negb (js_truthy_get (USED_TEMP_DIRS (proc w)) x)) w) by done.
  rewrite (bind_Ok _ _ _ _ _ IH).
  unfold mret, M_ret. cbn [List.filter]. by destruct (js_truthy_get _ x).
Qed.

Lemma _getTmpDirsList_eq this w :
  _getTmpDirsList this w =
    match fs_readdir TESTCAFE_TMP_DIRS_ROOT (fs w) with
    | inl e => (Throw (FsError e), w)
    | inr tmpDirNames =>
        (Ok (candidates (USED_TEMP_DIRS (proc w)) (namePrefix this) tmpDirNames), w)
    end.
Proof.
  unfold _getTmpDirsList, readDir, mbind, M_bind.
  destruct (fs_readdir _ _) as [e|l]; [done|].
  by rewrite filterM_registry_truthy.
Qed.

Lemma can_acquire_LockFile_init w tmpDirName :
  LockFile_init (LockFile_new (path_join TESTCAFE_TMP_DIRS_ROOT tmpDirName)) w =
    match fs_open_excl (pid (proc w))
            (marker_of (path_join TESTCAFE_TMP_DIRS_ROOT tmpDirName)) (fs w) with
    | inr f' => (Ok true, set_fs f' w)
    | inl _ => (Ok false, w)
    end.
Proof. by rewrite LockFile_init_eq. Qed.

(** The loop of [_findFreeTmpDir]: it passes over the names whose marker
    cannot be created, changing nothing, and stops at the first one whose
    marker it creates. *)
Lemma _findFreeTmpDir_spec this l w :
  ((∀ c, c ∈ l → can_acquire w c = false) ∧
   _findFreeTmpDir this l w = (Ok (this, false), w)) ∨
  (∃ l1 d l2 f',
     l = l1 ++ d :: l2 ∧ (∀ c, c ∈ l1 → can_acquire w c = false) ∧
     fs_open_excl (pid (proc w)) (marker_of (path_join TESTCAFE_TMP_DIRS_ROOT d)) (fs w)
       = inr f' ∧
     _findFreeTmpDir this l w =
       (Ok (set_lockFile (Some (LockFile_new (path_join TESTCAFE_TMP_DIRS_ROOT d)))
              (set_path (path_join TESTCAFE_TMP_DIRS_ROOT d) this), true),
        set_fs f' w)).
Proof.
  induction l as [|d l IH]; simpl.
  - left. split; [|done]. by intros c ?%elem_of_nil.
  - unfold mbind, M_bind. rewrite can_acquire_LockFile_init.
    destruct (fs_open_excl _ _ _) as [e|f'] eqn:Ho.
    + assert (can_acquire w d = false) as Hd by (unfold can_acquire; by rewrite Ho).
      destruct IH as [[Hl ->]|(l1 & d' & l2 & f' & -> & Hl1 & Ho' & ->)].
      * left. split; [|done]. by intros c [->|?]%elem_of_cons; [|apply Hl].
      * right. exists (d :: l1), d', l2, f'. split_and!; try done.
        by intros c [->|?]%elem_of_cons; [|apply Hl1].
    + right. exists [], d, l, f'. split_and!; try done. by intros c ?%elem_of_nil.
Qed.

Lemma _createNewTmpDir_eq this w :
  _createNewTmpDir this w =
    match tmpNameSync TESTCAFE_TMP_DIRS_ROOT (namePrefix this +:+ "-") w with
    | (Throw e, w1) => (Throw e, w1)
    | (Ok p, w1) =>
        match fs_mkdirp (String.length p) p (fs w1) with
        | inl e => (Throw (FsError e), w1)
        | inr f2 =>
            (Ok (set_lockFile (Some (LockFile_new p)) (set_path p this)),
             match fs_open_excl (pid (proc w1)) (marker_of p) f2 with
             | inr f3 => set_fs f3 w1
             | inl _ => set_fs f2 w1
             end)
        end
    end.
Proof.
  unfold _createNewTmpDir, mbind, M_bind.
  destruct (tmpNameSync _ _ w) as [[p|e] w1]; [|done].
  simpl. rewrite ensureDir_eq.
  destruct (fs_mkdirp _ p (fs w1)) as [e|f2]; [done|].
  rewrite LockFile_init_eq. simpl.
  by destruct (fs_open_excl _ _ f2).
Qed.

Lemma init_eq this w :
  init this w =
    match ensureDir TESTCAFE_TMP_DIRS_ROOT w with
    | (Throw e, w1) => (Throw e, w1)
    | (Ok _, w1) =>
        match _getTmpDirsList this w1 with
        | (Throw e, w2) => (Throw e, w2)
        | (Ok tmpDirNames, w2) =>
            match _findFreeTmpDir this tmpDirNames w2 with
            | (Throw e, w3) => (Throw e, w3)
            | (Ok (this', true), w3) =>
                (Ok this', set_USED_TEMP_DIRS
                             (js_set (path this') this' (USED_TEMP_DIRS (proc w3))) w3)
            | (Ok (this', false), w3) =>
                match _createNewTmpDir this' w3 with
                | (Throw e, w4) => (Throw e, w4)
                | (Ok this'', w4) =>
                    (Ok this'', set_USED_TEMP_DIRS
                                  (js_set (path this'') this'' (USED_TEMP_DIRS (proc w4))) w4)
                end
            end
        end
    end.
Proof.
  unfold init, mbind, M_bind.
  destruct (ensureDir _ w) as [[[]|e] w1]; [|done].
  destruct (_getTmpDirsList this w1) as [[l|e] w2]; [|done].
  destruct (_findFreeTmpDir this l w2) as [[[this' []]|e] w3]; [done| |done].
  by destruct (_createNewTmpDir this' w3) as [[this''|e] w4].
Qed.

Lemma dispose_eq this w :
  dispose this w =
    if negb (js_truthy_get (USED_TEMP_DIRS (proc w)) (path this)) then (Ok this, w)
    else match lockFile this with
         | None => (Throw TypeError, w)
         | Some lockFile =>
             (Ok this,
              set_USED_TEMP_DIRS (js_delete (path this) (USED_TEMP_DIRS (proc w)))
                match fs_unlink (lf_path lockFile) (fs w) with
                | inr f' => set_fs f' w
                | inl _ => w
                end)
         end.
Proof.
  unfold dispose, mbind, M_bind, registry_truthy. simpl.
  destruct (js_truthy_get _ _); simpl; [|done].
  destruct (lockFile this) as [lf|]; [|done].
  rewrite LockFile_dispose_eq. unfold registry_delete.
  by destruct (fs_unlink _ _).
Qed.

(** *** What [init] does to the world *)

Lemma fs_open_excl_inr me p f f' :
  fs_open_excl me p f = inr f' → nodes f !! p = None ∧ fs_create p (File me) f = inr f'.
Proof. unfold fs_open_excl. by destruct (nodes f !! p). Qed.

Lemma fs_open_excl_writable_dir me p f f' k :
  fs_open_excl me p f = inr f' → writable_dir f k → writable_dir f' k.
Proof. intros [Hp Hc]%fs_open_excl_inr. by eapply fs_create_writable_dir. Qed.

Lemma fs_open_excl_marker_dir me d f f' :
  d ≠ "" → fs_open_excl me (marker_of d) f = inr f' → writable_dir f' d.
Proof.
  intros Hd Ho. eapply fs_open_excl_writable_dir; [done|].
  apply fs_open_excl_inr in Ho as [_ Hc].
  apply fs_create_inr in Hc as (d0 & b & r & es & k & Hs & Hd0 & _).
  rewrite (marker_split d Hd) in Hs. injection Hs as <- <-. by exists r, es.
Qed.

Lemma fs_open_excl_file me p f f' q c :
  fs_open_excl me p f = inr f' →
  nodes f' !! q = Some (File c) ↔ (q = p ∧ c = me) ∨ nodes f !! q = Some (File c).
Proof.
  intros [Hp Hc]%fs_open_excl_inr. rewrite (fs_create_file _ _ _ _ q c Hp Hc).
  split.
  - intros [[-> [= ->]]|[_ ?]]; [by left|by right].
  - intros [[-> ->]|Hq]; [by left|]. right. split; [|done]. intros ->. congruence.
Qed.

Lemma init_effect this w r w' :
  init this w = (r, w') →
  pid (proc w') = pid (proc w) ∧
  (∀ k, writable_dir (fs w) k → writable_dir (fs w') k) ∧
  (∀ q c, nodes (fs w) !! q = Some (File c) → nodes (fs w') !! q = Some (File c)) ∧
  match r with
  | Throw _ =>
      USED_TEMP_DIRS (proc w') = USED_TEMP_DIRS (proc w) ∧
      (∀ q c, nodes (fs w') !! q = Some (File c) → nodes (fs w) !! q = Some (File c))
  | Ok a =>
      USED_TEMP_DIRS (proc w') = js_set (path a) a (USED_TEMP_DIRS (proc w)) ∧
      namePrefix a = namePrefix this ∧
      (∃ tmpDirName, path a = path_join TESTCAFE_TMP_DIRS_ROOT tmpDirName) ∧
      lockFile a = Some (LockFile_new (path a)) ∧
      writable_dir (fs w') (path a) ∧
      (∀ q c, nodes (fs w') !! q = Some (File c) →
              nodes (fs w) !! q = Some (File c) ∨
              (q = marker_of (path a) ∧ c = pid (proc w)))
  end.
Proof.
  rewrite init_eq, ensureDir_eq.
  destruct (fs_mkdirp _ _ (fs w)) as [e|f1] eqn:Hroot.
  { intros [= <- <-]. done. }
  destruct (fs_mkdirp_inr _ _ _ _ Hroot) as (Hw1 & Hf1 & _).
  rewrite _getTmpDirsList_eq. simpl.
  destruct (fs_readdir _ f1) as [e|tmpDirNames].
  { intros [= <- <-]. simpl. split_and!; try done; intros q c; by rewrite Hf1. }
  destruct (_findFreeTmpDir_spec this
              (candidates (USED_TEMP_DIRS (proc w)) (namePrefix this) tmpDirNames)
              (set_fs f1 w)) as [[_ ->]|(l1 & d & l2 & f2 & _ & _ & Ho & ->)].
  - rewrite _createNewTmpDir_eq.
    destruct (tmpNameSync _ _ _) as [[p|e] w1] eqn:Htmp.
    2:{ apply tmpName_tries_spec in Htmp as [[n ->] _]. intros [= <- <-]. simpl.
        split_and!; try done; intros q c; by rewrite Hf1. }
    apply tmpName_tries_spec in Htmp as [[n ->] Hp]. simpl.
    destruct (Hp p eq_refl) as [Hnone [m Hname]]. simpl in Hnone, Hname.
    destruct (fs_mkdirp _ p f1) as [e|f2] eqn:Hmk.
    { intros [= <- <-]. simpl. split_and!; try done; intros q c; by rewrite Hf1. }
    destruct (fs_mkdirp_inr _ _ _ _ Hmk) as (Hw2 & Hf2 & _ & _ & Hnew).
    assert (writable_dir f2 p) as Hp2 by (exists true, []; by apply Hnew).
    destruct (fs_open_excl _ _ f2) as [e|f3] eqn:Ho; intros [= <- <-]; simpl.
    + split_and!; try done; try by eauto.
      * intros q c. by rewrite Hf2, Hf1.
      * intros q c. rewrite Hf2, Hf1. by left.
    + split_and!; try done; try by eauto.
      * intros k Hk. eapply fs_open_excl_writable_dir; eauto.
      * intros q c Hq. rewrite (fs_open_excl_file _ _ _ _ q c Ho), Hf2, Hf1. by right.
      * eapply fs_open_excl_writable_dir; eauto.
      * intros q c. rewrite (fs_open_excl_file _ _ _ _ q c Ho), Hf2, Hf1.
        intros [[-> ->]|?]; [by right|by left].
  - simpl in Ho. intros [= <- <-]. simpl.
    split_and!; try done; try by eauto.
    + intros k Hk. eapply fs_open_excl_writable_dir; eauto.
    + intros q c Hq. rewrite (fs_open_excl_file _ _ _ _ q c Ho), Hf1. by right.
    + eapply fs_open_excl_marker_dir; [apply pool_path_nonempty|done].
    + intros q c. rewrite (fs_open_excl_file _ _ _ _ q c Ho), Hf1.
      intros [[-> ->]|?]; [by right|by left].
Qed.

(** *** The registry along an execution *)

Lemma init_registry_ok this w r w' :
  registry_ok w → init this w = (r, w') → registry_ok w'.
Proof.
  intros Hok Hinit.
  destruct (init_effect _ _ _ _ Hinit) as (_ & Hw & _ & Hr).
  intros k v Hkv. destruct r as [a|e].
  - destruct Hr as (Hreg & _ & [name Hname] & Hlock & Hdir & _).
    rewrite Hreg in Hkv. apply elem_of_js_set in Hkv as [[= -> ->]|Hkv].
    + split_and!; try done. rewrite Hname. apply pool_path_nonempty.
    + destruct (Hok k v Hkv) as (? & ? & ? & ?). split_and!; try done. by apply Hw.
  - destruct Hr as [Hreg _]. rewrite Hreg in Hkv.
    destruct (Hok k v Hkv) as (? & ? & ? & ?). split_and!; try done. by apply Hw.
Qed.

Lemma dispose_registry_ok this w r w' :
  registry_ok w → dispose this w = (r, w') → registry_ok w'.
Proof.
  intros Hok. rewrite dispose_eq.
  destruct (negb _); [by intros [= <- <-]|].
  destruct (lockFile this) as [lf|]; [|by intros [= <- <-]].
  intros [= <- <-] k v. simpl.
  intros [Hk Hkv]%elem_of_js_delete.
  destruct (fs_unlink _ _) as [e|f'] eqn:Hu; simpl in *;
    destruct (Hok k v Hkv) as (? & ? & ? & ?); split_and!; try done.
  by eapply fs_unlink_writable_dir.
Qed.

Lemma forEach_dispose_registry_ok l w r w' :
  registry_ok w →
  forEach (λ tmpDir, dispose tmpDir;; mret tt) l w = (r, w') → registry_ok w'.
Proof.
  revert w. induction l as [|x l IH]; intros w Hok; simpl.
  - by intros [= <- <-].
  - unfold mbind at 1, M_bind at 1. unfold mbind at 1, M_bind at 1.
    destruct (dispose x w) as [[a|e] w1] eqn:Hd.
    + unfold mret at 1, M_ret at 1. apply IH. by eapply dispose_registry_ok.
    + intros [= <- <-]. by eapply dispose_registry_ok.
Qed.

(** Along every execution the registry holds what [init] put there. *)
Lemma reachable_registry_ok w : reachable w → registry_ok w.
Proof.
  induction 1 as [w [Hreg _]|w prefix r w' _ IH Hc|w a r w' _ IH _ Hd|w r w' _ IH Hd].
  - intros k v. rewrite Hreg. by intros ?%elem_of_nil.
  - by eapply init_registry_ok.
  - by eapply dispose_registry_ok.
  - eapply forEach_dispose_registry_ok; [exact IH|exact Hd].
Qed.

Lemma createDirectory_obj_wf prefix w a w' :
  createDirectory prefix w = (Ok a, w') → obj_wf a.
Proof.
  intros Hc. destruct (init_effect _ _ _ _ Hc) as (_ & _ & _ & _ & _ & Hname & Hlock & _).
  by right.
Qed.

Lemma plain_app_sep a b : plain (a +:+ String sep b) = false.
Proof. induction a as [|c a IH]; [done|]. rewrite append_cons. simpl. by rewrite IH, andb_false_r. Qed.

(** A path inside the pool is not the name of a property of
    [Object.prototype]. *)
Lemma pool_path_not_prototype tmpDirName :
  path_join TESTCAFE_TMP_DIRS_ROOT tmpDirName ∉ Object_prototype_keys.
Proof.
  assert (∀ k, k ∈ Object_prototype_keys → plain k = true ∧ k ≠ "testcafe-tmp") as Hkeys.
  { intros k Hk. unfold Object_prototype_keys in Hk.
    repeat (apply elem_of_cons in Hk as [->|Hk]; [done|]). by apply elem_of_nil in Hk. }
  assert (plain TESTCAFE_TMP_DIRS_ROOT = false ∨ TESTCAFE_TMP_DIRS_ROOT = "testcafe-tmp")
    as Hroot.
  { unfold TESTCAFE_TMP_DIRS_ROOT, path_join. repeat case_bool_decide; try done; auto.
    left. apply plain_app_sep. }
  intros [Hplain Hne]%Hkeys. revert Hplain Hne.
  unfold path_join. rewrite (bool_decide_eq_false_2 _ ROOT_nonempty).
  case_bool_decide.
  - destruct Hroot as [->| ->]; done.
  - by rewrite plain_app_sep.
Qed.

Lemma registered_truthy w k :
  js_truthy_get (USED_TEMP_DIRS (proc w)) k = true ↔
  registered w k ∨ k ∈ Object_prototype_keys.
Proof.
  unfold js_truthy_get, registered.
  by rewrite orb_true_iff, !bool_decide_eq_true.
Qed.

(** *** Releasing *)

Lemma fs_unlink_is_file_false p f f' q :
  fs_unlink p f = inr f' →
  is_file (nodes f !! q) = false → is_file (nodes f' !! q) = false.
Proof.
  intros Hu Hq. destruct (nodes f' !! q) as [[c|? ? ?]|] eqn:Hq'; try done.
  apply (fs_unlink_file _ _ _ q c Hu) in Hq' as [_ Hq']. by rewrite Hq' in Hq.
Qed.

Lemma not_truthy_own_get r k : js_truthy_get r k = false → own_get k r = None.
Proof.
  unfold js_truthy_get. intros [Hown _]%orb_false_iff.
  apply bool_decide_eq_false in Hown. by apply eq_None_not_Some.
Qed.

(** One [dispose] of an object that [init] has set up. *)
Lemma dispose_step v w :
  lockFile v = Some (LockFile_new (path v)) → path v ≠ "" →
  writable_dir (fs w) (path v) →
  registered w (path v) ∨ is_file (nodes (fs w) !! marker_of (path v)) = false →
  ∃ w1, dispose v w = (Ok v, w1) ∧
    USED_TEMP_DIRS (proc w1) = js_delete (path v) (USED_TEMP_DIRS (proc w)) ∧
    is_file (nodes (fs w1) !! marker_of (path v)) = false ∧
    (∀ q, is_dir (nodes (fs w1) !! q) = is_dir (nodes (fs w) !! q)) ∧
    (∀ q, is_file (nodes (fs w) !! q) = false → is_file (nodes (fs w1) !! q) = false) ∧
    (∀ k, writable_dir (fs w) k → writable_dir (fs w1) k).
Proof.
  intros Hlock Hne Hdir Hreg. rewrite dispose_eq, Hlock.
  destruct (js_truthy_get _ _) eqn:Ht; simpl.
  - change (lf_path (LockFile_new (path v))) with (marker_of (path v)).
    destruct (fs_unlink _ _) as [e|f'] eqn:Hu; eexists; (split; [done|]); simpl.
    + split_and!; try done. eapply fs_unlink_inl; eauto using marker_split.
    + split_and!; try done.
      * rewrite (fs_unlink_lookup _ _ _ (marker_of (path v)) Hu). by rewrite decide_True.
      * intros q. by eapply fs_unlink_is_dir.
      * intros q. by eapply fs_unlink_is_file_false.
      * intros k. by eapply fs_unlink_writable_dir.
  - exists w. apply not_truthy_own_get in Ht.
    split_and!; try done.
    + by rewrite js_delete_absent.
    + destruct Hreg as [[x Hx]|?]; [|done]. unfold registered in *. congruence.
Qed.

(** The loop of [disposeDirectories] over objects that [init] has set up. *)
Lemma forEach_dispose_spec l w :
  (∀ v, v ∈ l →
        lockFile v = Some (LockFile_new (path v)) ∧ path v ≠ "" ∧
        writable_dir (fs w) (path v) ∧
        (registered w (path v) ∨ is_file (nodes (fs w) !! marker_of (path v)) = false)) →
  ∃ w', forEach (λ tmpDir, dispose tmpDir;; mret tt) l w = (Ok tt, w') ∧
    USED_TEMP_DIRS (proc w') =
      foldl (λ r v, js_delete (path v) r) (USED_TEMP_DIRS (proc w)) l ∧
    (∀ v, v ∈ l → is_file (nodes (fs w') !! marker_of (path v)) = false) ∧
    (∀ q, is_dir (nodes (fs w') !! q) = is_dir (nodes (fs w) !! q)) ∧
    (∀ q, is_file (nodes (fs w) !! q) = false → is_file (nodes (fs w') !! q) = false).
Proof.
  revert w. induction l as [|x l IH]; intros w Hl.
  - exists w. split_and!; try done. by intros v ?%elem_of_nil.
  - destruct (Hl x (list_elem_of_here _ _)) as (Hlock & Hne & Hdir & Hreg).
    destruct (dispose_step x w Hlock Hne Hdir Hreg)
      as (w1 & Hd & Hreg1 & Hmark1 & Hdir1 & Hfile1 & Hw1).
    destruct (IH w1) as (w' & Hloop & Hreg' & Hmark' & Hdir' & Hfile').
    { intros v Hv. destruct (Hl v (list_elem_of_further _ _ _ Hv)) as (? & ? & ? & Hv').
      split_and!; try done; [by apply Hw1|].
      destruct (decide (path v = path x)) as [->|Hvx]; [by right|].
      destruct Hv' as [Hv'|Hv']; [left|right; by apply Hfile1].
      unfold registered. rewrite Hreg1, own_get_js_delete. by rewrite decide_False. }
    exists w'. split_and!.
    + cbn [forEach]. rewrite (bind_Ok _ _ w tt w1); [done|].
      by rewrite (bind_Ok _ _ w x w1 Hd).
    + by rewrite Hreg', Hreg1.
    + intros v [->|Hv]%elem_of_cons; [by apply Hfile'|by apply Hmark'].
    + intros q. by rewrite Hdir', Hdir1.
    + intros q Hq. by apply Hfile', Hfile1.
Qed.

Lemma foldl_js_delete_all l r :
  (∀ k v, (k, v) ∈ r → k ∈ path <$> l) →
  foldl (λ r v, js_delete (path v) r) r l = [].
Proof.
  revert r. induction l as [|x l IH]; intros r Hr; simpl.
  - destruct r as [|[k v] r]; [done|].
    pose proof (Hr k v (list_elem_of_here _ _)) as Hk. by apply elem_of_nil in Hk.
  - apply IH. intros k v [Hk Hkv]%elem_of_js_delete.
    by apply Hr, elem_of_cons in Hkv as [?|?].
Qed.

(** C9.  [disposeDirectories] returns normally and leaves the registry
    empty; in every directory that was registered no marker file is left,
    and the directory itself is still there: the directories of the file
    system are exactly those from before. *)
Theorem disposeDirectories_releases_all (w : World) :
  reachable w →
  ∃ w', disposeDirectories w = (Ok tt, w') ∧
    USED_TEMP_DIRS (proc w') = [] ∧
    (∀ d, registered w d →
          is_file (nodes (fs w') !! marker_of d) = false ∧
          ¬ holds_lock w' d ∧
          is_dir (nodes (fs w') !! d) = true) ∧
    (∀ q, is_dir (nodes (fs w') !! q) = is_dir (nodes (fs w) !! q)).
Proof.
  intros Hok%reachable_registry_ok.
  assert (∀ v, v ∈ Object_values (USED_TEMP_DIRS (proc w)) →
               (path v, v) ∈ USED_TEMP_DIRS (proc w)) as Hval.
  { intros v ([k v'] & -> & Hkv)%list_elem_of_fmap. simpl.
    by destruct (Hok k v' Hkv) as (-> & _). }
  destruct (forEach_dispose_spec (Object_values (USED_TEMP_DIRS (proc w))) w)
    as (w' & Hloop & Hreg & Hmark & Hdir & _).
  { intros v Hv%Hval. destruct (Hok _ _ Hv) as (_ & ? & ? & ?).
    split_and!; try done. left. by eapply elem_of_own_get. }
  exists w'. split_and!; try done.
  - rewrite Hreg. apply foldl_js_delete_all. intros k v Hkv.
    apply list_elem_of_fmap. exists v. split; [by destruct (Hok k v Hkv) as (-> & _)|].
    apply list_elem_of_fmap. by exists (k, v).
  - intros d [v Hv%own_get_Some_elem_of].
    destruct (Hok d v Hv) as (Hpath & _ & _ & (r & es & Hd)).
    assert (is_file (nodes (fs w') !! marker_of d) = false) as Hfile.
    { rewrite <- Hpath. apply Hmark. apply list_elem_of_fmap. by exists (d, v). }
    split_and!; [done| |].
    + unfold holds_lock. intros Hh. by rewrite Hh in Hfile.
    + by rewrite Hdir, Hd.
Qed.

(** C10.  [dispose] of a registered allocation returns normally with the
    object as it was (same path, same lock file); the registry loses the
    entry under that path and keeps every other entry, in the same order. *)
Theorem dispose_removes_only_own_entry (a : TempDirectory) (w : World) :
  reachable w →
  own_get (path a) (USED_TEMP_DIRS (proc w)) = Some a →
  ∃ a' w', dispose a w = (Ok a', w') ∧
    path a' = path a ∧ lockFile a' = lockFile a ∧
    USED_TEMP_DIRS (proc w') = js_delete (path a) (USED_TEMP_DIRS (proc w)) ∧
    own_get (path a) (USED_TEMP_DIRS (proc w')) = None ∧
    (∀ k, k ≠ path a →
          own_get k (USED_TEMP_DIRS (proc w')) = own_get k (USED_TEMP_DIRS (proc w))).
Proof.
  intros Hok%reachable_registry_ok Ha.
  destruct (Hok _ _ (own_get_Some_elem_of _ _ _ Ha)) as (_ & Hlock & Hne & Hdir).
  destruct (dispose_step a w Hlock Hne Hdir) as (w' & Hd & Hreg & _).
  { left. unfold registered. by rewrite Ha. }
  exists a, w'. split_and!; try done.
  - rewrite Hreg, own_get_js_delete. by rewrite decide_True.
  - intros k Hk. rewrite Hreg, own_get_js_delete. by rewrite decide_False.
Qed.

(** C6.  Releasing is idempotent and never throws.  [LockFile.dispose]
    returns normally whatever the file system answers, and changes nothing
    when the marker is already gone.  [dispose] of an allocation returns
    normally, and a second [dispose] right after it changes nothing; on an
    allocation that is not registered the first one changes nothing
    already. *)
Theorem release_idempotent (lf : LockFile) (a : TempDirectory) (w : World) :
  reachable w → obj_wf a →
  (∃ w', LockFile_dispose lf w = (Ok tt, w')) ∧
  (nodes (fs w) !! lf_path lf = None → LockFile_dispose lf w = (Ok tt, w)) ∧
  (∃ w1, dispose a w = (Ok a, w1) ∧ dispose a w1 = (Ok a, w1)) ∧
  (¬ registered w (path a) → dispose a w = (Ok a, w)).
Proof.
  intros Hok%reachable_registry_ok Hwf.
  assert (path a ∉ Object_prototype_keys) as Hproto.
  { destruct Hwf as [[-> _]|[[name ->] _]]; [|apply pool_path_not_prototype].
    unfold Object_prototype_keys. intros Hk.
    repeat (apply elem_of_cons in Hk as [?|Hk]; [done|]). by apply elem_of_nil in Hk. }
  assert (∀ w0, ¬ registered w0 (path a) → dispose a w0 = (Ok a, w0)) as Hnoop.
  { intros w0 Hn. rewrite dispose_eq.
    destruct (js_truthy_get _ _) eqn:Ht; [|done].
    apply registered_truthy in Ht as [?|?]; done. }
  split_and!.
  - rewrite LockFile_dispose_eq. by eexists.
  - intros Hgone. rewrite LockFile_dispose_eq. unfold fs_unlink. by rewrite Hgone.
  - destruct (decide (registered w (path a))) as [[v Hv]|Hn].
    2:{ exists w. split; by apply Hnoop. }
    destruct (Hok _ _ (own_get_Some_elem_of _ _ _ Hv)) as (_ & _ & Hne & Hdir).
    assert (lockFile a = Some (LockFile_new (path a))) as Hlock.
    { by destruct Hwf as [[? _]|[_ ?]]. }
    destruct (dispose_step a w Hlock Hne Hdir) as (w1 & Hd & Hreg & _).
    { left. by exists v. }
    exists w1. split; [done|]. apply Hnoop. unfold registered.
    rewrite Hreg, own_get_js_delete. rewrite decide_True by done. by intros [? ?].
  - apply Hnoop.
Qed.

(** *** Allocating *)

Lemma can_acquire_true w d :
  can_acquire w d = true ↔
  ∃ f', fs_open_excl (pid (proc w)) (marker_of (path_join TESTCAFE_TMP_DIRS_ROOT d)) (fs w)
        = inr f'.
Proof.
  unfold can_acquire. destruct (fs_open_excl _ _ _) as [e|f'].
  - split; [done|]. by intros [? ?].
  - split; [by eexists|done].
Qed.

Lemma unlocked_dir_can_acquire w d : unlocked_dir w d → can_acquire w d = true.
Proof.
  intros ((r & es & Hd) & Hm & Hfree). unfold can_acquire, fs_open_excl, fs_create.
  rewrite Hm, (marker_split _ (pool_path_nonempty d)), Hd. simpl.
  destruct (free_inodes (fs w)); [lia|done].
Qed.

Lemma _findFreeTmpDir_first this l1 d l2 w f' :
  (∀ c, c ∈ l1 → can_acquire w c = false) →
  fs_open_excl (pid (proc w)) (marker_of (path_join TESTCAFE_TMP_DIRS_ROOT d)) (fs w)
    = inr f' →
  _findFreeTmpDir this (l1 ++ d :: l2) w =
    (Ok (set_lockFile (Some (LockFile_new (path_join TESTCAFE_TMP_DIRS_ROOT d)))
           (set_path (path_join TESTCAFE_TMP_DIRS_ROOT d) this), true),
     set_fs f' w).
Proof.
  intros Hl1 Ho. induction l1 as [|c l1 IH]; simpl.
  - unfold mbind, M_bind. by rewrite can_acquire_LockFile_init, Ho.
  - unfold mbind at 1, M_bind at 1. rewrite can_acquire_LockFile_init.
    pose proof (Hl1 c (list_elem_of_here _ _)) as Hc. unfold can_acquire in Hc.
    destruct (fs_open_excl _ (marker_of (path_join TESTCAFE_TMP_DIRS_ROOT c)) _); [|done].
    apply IH. intros c' Hc'. by apply Hl1, list_elem_of_further.
Qed.

Lemma _findFreeTmpDir_none this l w :
  (∀ c, c ∈ l → can_acquire w c = false) →
  _findFreeTmpDir this l w = (Ok (this, false), w).
Proof.
  intros Hl. destruct (_findFreeTmpDir_spec this l w)
    as [[_ ->]|(l1 & d & l2 & f' & -> & _ & Ho & _)]; [done|].
  assert (can_acquire w d = true) as Hd by (apply can_acquire_true; eauto).
  rewrite Hl in Hd; [done|]. apply elem_of_app. right. apply list_elem_of_here.
Qed.

Lemma first_true {A} (P : A → bool) (l : list A) :
  (∃ c, c ∈ l ∧ P c = true) →
  ∃ l1 d l2, l = l1 ++ d :: l2 ∧ (∀ c, c ∈ l1 → P c = false) ∧ P d = true.
Proof.
  induction l as [|x l IH]; intros (c & Hc & HP).
  - by apply elem_of_nil in Hc.
  - destruct (P x) eqn:Hx.
    + exists [], x, l. split_and!; try done. by intros ? ?%elem_of_nil.
    + apply elem_of_cons in Hc as [->|Hc]; [congruence|].
      destruct IH as (l1 & d & l2 & -> & Hl1 & Hd); [by eauto|].
      exists (x :: l1), d, l2. split_and!; try done.
      by intros c' [->|?]%elem_of_cons; [|apply Hl1].
Qed.

Lemma fs_open_excl_is_dir me p f f' q :
  fs_open_excl me p f = inr f' → is_dir (nodes f' !! q) = is_dir (nodes f !! q).
Proof.
  intros [Hp Hc]%fs_open_excl_inr. rewrite (fs_create_is_dir _ _ _ _ q Hp Hc).
  destruct (decide (q = p)) as [->|]; [by rewrite Hp|done].
Qed.

Lemma fs_open_excl_is_file me p f f' q :
  fs_open_excl me p f = inr f' → q ≠ p → is_file (nodes f' !! q) = is_file (nodes f !! q).
Proof.
  intros Ho Hq.
  destruct (nodes f' !! q) as [[c|? ? ?]|] eqn:Hq'.
  - apply (fs_open_excl_file _ _ _ _ q c Ho) in Hq' as [[? _]|Hq']; [done|by rewrite Hq'].
  - destruct (nodes f !! q) as [[c|? ? ?]|] eqn:Hq0; try done.
    assert (nodes f' !! q = Some (File c)) as Hc
      by (apply (fs_open_excl_file _ _ _ _ q c Ho); by right).
    congruence.
  - destruct (nodes f !! q) as [[c|? ? ?]|] eqn:Hq0; try done.
    assert (nodes f' !! q = Some (File c)) as Hc
      by (apply (fs_open_excl_file _ _ _ _ q c Ho); by right).
    congruence.
Qed.

(** C7.  The pool root being a directory that can be listed: (1) if the
    candidate list, in the order of the listing, starts with names whose
    lock cannot be acquired followed by a name [d] whose lock can, then the
    allocation succeeds with the existing directory [d]: its path and lock
    file are those of [d], it is registered, the marker of [d] is created
    by this call and held, no other file appears or vanishes and the
    directories are those from before; (2) in particular, when some
    candidate is a writable directory without a marker, the allocation
    takes one of the candidates and creates no directory. *)
Theorem allocate_claims_first_free
    (prefix : string) (w : World) (wr : bool) (tmpDirNames : list string) :
  nodes (fs w) !! TESTCAFE_TMP_DIRS_ROOT = Some (Dir true wr tmpDirNames) →
  (∀ l1 d l2,
     candidates (USED_TEMP_DIRS (proc w)) prefix tmpDirNames = l1 ++ d :: l2 →
     (∀ c, c ∈ l1 → can_acquire w c = false) →
     can_acquire w d = true →
     ∃ a w', createDirectory prefix w = (Ok a, w') ∧
       path a = path_join TESTCAFE_TMP_DIRS_ROOT d ∧
       lockFile a = Some (LockFile_new (path a)) ∧
       USED_TEMP_DIRS (proc w') = js_set (path a) a (USED_TEMP_DIRS (proc w)) ∧
       nodes (fs w) !! marker_of (path a) = None ∧
       holds_lock w' (path a) ∧
       (∀ q, q ≠ marker_of (path a) →
             is_file (nodes (fs w') !! q) = is_file (nodes (fs w) !! q)) ∧
       (∀ q, is_dir (nodes (fs w') !! q) = is_dir (nodes (fs w) !! q))) ∧
  ((∃ c, c ∈ candidates (USED_TEMP_DIRS (proc w)) prefix tmpDirNames ∧ unlocked_dir w c) →
   ∃ a w', createDirectory prefix w = (Ok a, w') ∧
     (∃ c, c ∈ candidates (USED_TEMP_DIRS (proc w)) prefix tmpDirNames ∧
           path a = path_join TESTCAFE_TMP_DIRS_ROOT c) ∧
     (∀ q, is_dir (nodes (fs w') !! q) = is_dir (nodes (fs w) !! q))).
Proof.
  intros Hroot.
  assert (∀ l1 d l2,
     candidates (USED_TEMP_DIRS (proc w)) prefix tmpDirNames = l1 ++ d :: l2 →
     (∀ c, c ∈ l1 → can_acquire w c = false) →
     can_acquire w d = true →
     ∃ a w', createDirectory prefix w = (Ok a, w') ∧
       path a = path_join TESTCAFE_TMP_DIRS_ROOT d ∧
       lockFile a = Some (LockFile_new (path a)) ∧
       USED_TEMP_DIRS (proc w') = js_set (path a) a (USED_TEMP_DIRS (proc w)) ∧
       nodes (fs w) !! marker_of (path a) = None ∧
       holds_lock w' (path a) ∧
       (∀ q, q ≠ marker_of (path a) →
             is_file (nodes (fs w') !! q) = is_file (nodes (fs w) !! q)) ∧
       (∀ q, is_dir (nodes (fs w') !! q) = is_dir (nodes (fs w) !! q))) as Hfirst.
  { intros l1 d l2 Hcands Hl1 [f' Ho]%can_acquire_true.
    unfold createDirectory. rewrite init_eq.
    rewrite ensureDir_dir by (by rewrite Hroot).
    rewrite _getTmpDirsList_eq. unfold fs_readdir. rewrite Hroot. simpl.
    rewrite Hcands, (_findFreeTmpDir_first _ l1 d l2 w f' Hl1 Ho).
    eexists _, _. split; [done|]. simpl. split_and!; try done.
    - by apply fs_open_excl_inr in Ho as [? _].
    - unfold holds_lock. simpl. apply (fs_open_excl_file _ _ _ _ _ _ Ho). by left.
    - intros q Hq. by eapply fs_open_excl_is_file.
    - intros q. by eapply fs_open_excl_is_dir. }
  split; [exact Hfirst|].
  intros (c & Hc & Hun%unlocked_dir_can_acquire).
  destruct (first_true (can_acquire w) _ (ex_intro _ c (conj Hc Hun)))
    as (l1 & d & l2 & Hcands & Hl1 & Hd).
  destruct (Hfirst l1 d l2 Hcands Hl1 Hd) as (a & w' & Hcreate & Hpath & _ & _ & _ & _ & _ & Hdirs).
  exists a, w'. split_and!; try done.
  exists d. split; [|done]. rewrite Hcands. apply elem_of_app. right. apply list_elem_of_here.
Qed.

(** Creating a node takes no entry out of the pool root. *)
Lemma fs_create_pool_entry p n f f' x :
  nodes f !! p = None → fs_create p n f = inr f' → pool_entry f x → pool_entry f' x.
Proof.
  intros Hp Hc (r & wr & es & Hroot & Hx). unfold pool_entry.
  rewrite (fs_create_lookup p n f f' TESTCAFE_TMP_DIRS_ROOT Hp Hc).
  destruct (decide (TESTCAFE_TMP_DIRS_ROOT = p)) as [Heq|_]; [congruence|].
  rewrite Hroot. destruct (split_last_sep p) as [[d|] b]; [|by eauto].
  destruct (decide (TESTCAFE_TMP_DIRS_ROOT = d)); [|by eauto].
  exists r, wr, (es ++ [b]). split; [done|]. apply elem_of_app. by left.
Qed.

Lemma fs_open_excl_pool_entry me p f f' x :
  fs_open_excl me p f = inr f' → pool_entry f x → pool_entry f' x.
Proof. intros [Hp Hc]%fs_open_excl_inr. by eapply fs_create_pool_entry. Qed.

(** [mkdir -p] of a path that does not exist, one segment below the pool
    root, enters that segment in the pool root. *)
Lemma fs_mkdirp_pool_entry tmpDirName f f' :
  plain tmpDirName = true → tmpDirName ≠ "" →
  is_dir (nodes f !! TESTCAFE_TMP_DIRS_ROOT) = true →
  nodes f !! path_join TESTCAFE_TMP_DIRS_ROOT tmpDirName = None →
  fs_mkdirp (String.length (path_join TESTCAFE_TMP_DIRS_ROOT tmpDirName))
    (path_join TESTCAFE_TMP_DIRS_ROOT tmpDirName) f = inr f' →
  pool_entry f' tmpDirName.
Proof.
  intros Hplain Hne Hroot Hnone.
  destruct (nonempty_length _ (pool_path_nonempty tmpDirName)) as [n ->]. simpl.
  rewrite Hnone, (pool_path_split _ Hne Hplain), (fs_mkdirp_dir _ _ _ Hroot).
  intros [_ (d & b & r & es & k & Hs & Hd & _ & ->)%fs_create_inr]%fs_mkdir_inr.
  rewrite (pool_path_split _ Hne Hplain) in Hs. injection Hs as <- <-.
  exists r, true, (es ++ [tmpDirName]). simpl. split.
  - rewrite lookup_insert_ne by congruence. apply lookup_insert_eq.
  - apply elem_of_app. right. apply list_elem_of_here.
Qed.

(** In a directory that can be written to, the marker can be created
    exactly when nothing is at its path and an inode is left. *)
Lemma fs_open_excl_marker me d f :
  d ≠ "" → writable_dir f d →
  (∃ f', fs_open_excl me (marker_of d) f = inr f') ↔
  nodes f !! marker_of d = None ∧ 0 < free_inodes f.
Proof.
  intros Hd (r & es & Hdir). unfold fs_open_excl, fs_create.
  rewrite (marker_split d Hd), Hdir. simpl.
  destruct (nodes f !! marker_of d) as [n|].
  - split; [by intros [? ?]|by intros [? _]].
  - destruct (free_inodes f).
    + split; [by intros [? ?]|]. intros [_ ?]. lia.
    + split; [|by eexists]. intros _. split; [done|lia].
Qed.

(** C8.  The prefix is a single path segment, as the interface asks, and
    so are the suffixes the [tmp] package draws.  The pool root being there
    and listed, no candidate being claimed, the name generator answering
    [p] and the creation of [p] succeeding: the allocation succeeds with
    path [p], which is [prefix-<suffix>] under the pool root and did not
    exist before; [p] is made by this call, an empty writable directory
    entered in the pool root.  The lock of [p] is then attempted, and [p]
    is registered under the returned object whatever the attempt answers.
    The attempt answers [true] exactly when nothing is at the path of the
    marker and an inode is left once [p] is made: the marker is then created
    and the lock is held.  When it answers [false] no file is created, and
    the directory is registered all the same. *)
Theorem allocate_creates_fresh_dir
    (prefix : string) (w w0 w1 w2 : World) (tmpDirNames : list string) (p : string) :
  plain prefix = true →
  (∀ n, plain (tmp_random (proc w) n) = true) →
  ensureDir TESTCAFE_TMP_DIRS_ROOT w = (Ok tt, w0) →
  readDir TESTCAFE_TMP_DIRS_ROOT w0 = (Ok tmpDirNames, w0) →
  (∀ c, c ∈ candidates (USED_TEMP_DIRS (proc w0)) prefix tmpDirNames →
        can_acquire w0 c = false) →
  tmpNameSync TESTCAFE_TMP_DIRS_ROOT (prefix +:+ "-") w0 = (Ok p, w1) →
  ensureDir p w1 = (Ok tt, w2) →
  ∃ (acquired : bool) (w3 : World) (a : TempDirectory) (w' : World),
    LockFile_init (LockFile_new p) w2 = (Ok acquired, w3) ∧
    createDirectory prefix w = (Ok a, w') ∧
    w' = set_USED_TEMP_DIRS (js_set p a (USED_TEMP_DIRS (proc w3))) w3 ∧
    namePrefix a = prefix ∧ path a = p ∧ lockFile a = Some (LockFile_new p) ∧
    (∃ suffix, plain suffix = true ∧
               p = path_join TESTCAFE_TMP_DIRS_ROOT ((prefix +:+ "-") +:+ suffix) ∧
               pool_entry (fs w') ((prefix +:+ "-") +:+ suffix)) ∧
    nodes (fs w0) !! p = None ∧
    nodes (fs w2) !! p = Some (Dir true true []) ∧
    is_dir (nodes (fs w') !! p) = true ∧
    own_get p (USED_TEMP_DIRS (proc w')) = Some a ∧
    (acquired = true ↔ nodes (fs w2) !! marker_of p = None ∧ 0 < free_inodes (fs w2)) ∧
    (acquired = true → holds_lock w' p) ∧
    (acquired = false → fs w' = fs w2).
Proof.
  intros Hprefix Hrandom Hroot Hlist Hnone Htmp Hmk.
  assert (proc w0 = proc w ∧ is_dir (nodes (fs w0) !! TESTCAFE_TMP_DIRS_ROOT) = true)
    as [Hproc Hrootdir].
  { rewrite ensureDir_eq in Hroot.
    destruct (fs_mkdirp _ _ (fs w)) as [e|f0] eqn:Hm; [done|]. injection Hroot as <-.
    split; [done|]. simpl. by destruct (fs_mkdirp_inr _ _ _ _ Hm) as (_ & _ & _ & ? & _). }
  unfold createDirectory. rewrite init_eq, Hroot, _getTmpDirsList_eq.
  unfold readDir in Hlist. destruct (fs_readdir _ _) as [e|l]; [done|].
  injection Hlist as ->. simpl.
  rewrite (_findFreeTmpDir_none _ _ _ Hnone), _createNewTmpDir_eq. simpl. rewrite Htmp.
  destruct (tmpName_tries_spec _ _ _ _ _ _ Htmp) as [[n ->] Hp].
  destruct (Hp p eq_refl) as [Habsent [m Hname]].
  rewrite Hproc in Hname.
  set (tmpDirName := (prefix +:+ "-") +:+ tmp_random (proc w) m) in *.
  assert (plain tmpDirName = true) as Hplain.
  { unfold tmpDirName. by rewrite !plain_app, Hprefix, Hrandom. }
  assert (tmpDirName ≠ "") as Hne by (unfold tmpDirName; by destruct prefix).
  assert (p ≠ "") as Hpne by (rewrite Hname; apply pool_path_nonempty).
  rewrite ensureDir_eq in Hmk. simpl in *.
  destruct (fs_mkdirp _ p (fs w0)) as [e|f2] eqn:Hmkdir; [done|].
  injection Hmk as <-.
  destruct (fs_mkdirp_inr _ _ _ _ Hmkdir) as (_ & _ & _ & Hdir & Hnew).
  specialize (Hnew Habsent).
  assert (pool_entry f2 tmpDirName) as Hentry.
  { rewrite Hname in Hmkdir, Habsent. by eapply fs_mkdirp_pool_entry. }
  assert (writable_dir f2 p) as Hw by (by exists true, []).
  pose proof (fs_open_excl_marker (pid (proc w0)) p f2 Hpne Hw) as Hiff.
  rewrite LockFile_init_eq. simpl.
  change (path_join p LOCKFILE_NAME) with (marker_of p).
  destruct (fs_open_excl _ (marker_of p) f2) as [e|f3] eqn:Ho.
  - eexists false, _, _, _. split; [done|]. split; [done|]. simpl.
    split_and!; try done.
    + exists (tmp_random (proc w) m). by split_and!.
    + by rewrite own_get_js_set, decide_True.
    + split; [done|]. intros Hcan. apply Hiff in Hcan as [? ?]. done.
  - eexists true, _, _, _. split; [done|]. split; [done|]. simpl.
    split_and!; try done.
    + exists (tmp_random (proc w) m). split_and!; try done.
      by eapply fs_open_excl_pool_entry.
    + by rewrite (fs_open_excl_is_dir _ _ _ _ p Ho), Hnew.
    + by rewrite own_get_js_set, decide_True.
    + split; [|done]. intros _. apply Hiff. by exists f3.
    + intros _. unfold holds_lock. simpl.
      apply (fs_open_excl_file _ _ _ _ _ _ Ho). by left.
Qed.

Lemma rejects_Ok {A} (a : A) (w : World) : ¬ rejects (Ok a, w).
Proof. by intros ?. Qed.

(** C3, as it holds.  [createDirectory] rejects exactly when the pool root
    cannot be created, when it cannot be listed, or when no candidate is
    claimed and the fresh directory cannot be named or made.  A lock attempt
    never throws, so that no error of a lock attempt reaches the caller. *)
Theorem allocate_rejects_iff (prefix : string) (w : World) :
  (rejects (createDirectory prefix w) ↔
     pool_root_creation_fails w ∨ listing_fails w ∨ fallback_creation_fails prefix w) ∧
  (∀ lf w0, ¬ rejects (LockFile_init lf w0)).
Proof.
  split.
  2:{ intros lf w0. rewrite LockFile_init_eq. destruct (fs_open_excl _ _ _); apply rejects_Ok. }
  unfold pool_root_creation_fails, listing_fails, fallback_creation_fails, createDirectory.
  rewrite init_eq.
  destruct (ensureDir _ w) as [[[]|e] w0] eqn:Hroot.
  2:{ split; [by left|done]. }
  rewrite _getTmpDirsList_eq. simpl. unfold readDir.
  destruct (fs_readdir _ (fs w0)) as [e|tmpDirNames] eqn:Hls.
  { split; [|done]. intros _. right. left. exists w0. by rewrite Hls. }
  destruct (_findFreeTmpDir_spec (TempDirectory_new prefix)
              (candidates (USED_TEMP_DIRS (proc w0)) prefix tmpDirNames) w0)
    as [[Hnone ->]|(l1 & d & l2 & f' & Hcands & _ & Ho & ->)].
  - rewrite _createNewTmpDir_eq. simpl.
    destruct (tmpNameSync _ _ w0) as [[p|e] w1] eqn:Htmp.
    2:{ split; [|done]. intros _. right. right. exists w0, tmpDirNames.
        rewrite Hls. split_and!; try done. left. by rewrite Htmp. }
    destruct (fs_mkdirp _ p (fs w1)) as [e|f2] eqn:Hmk.
    + split; [|done]. intros _. right. right. exists w0, tmpDirNames.
      rewrite Hls. split_and!; try done. right. exists p, w1. split; [done|].
      by rewrite ensureDir_eq, Hmk.
    + split; [done|].
      intros [[]|[(w0' & [= <-] & Hr)|(w0' & l & [= <-] & _ & _ & Hr)]].
      * by rewrite Hls in Hr.
      * rewrite Htmp in Hr. destruct Hr as [[]|(p' & w1' & [= <- <-] & Hr)].
        by rewrite ensureDir_eq, Hmk in Hr.
  - split; [done|].
    intros [[]|[(w0' & [= <-] & Hr)|(w0' & l & [= <-] & Hl & Hnone & _)]].
    + by rewrite Hls in Hr.
    + rewrite Hls in Hl. injection Hl as <-.
      assert (can_acquire w0 d = true) as Hd by (apply can_acquire_true; eauto).
      rewrite Hnone in Hd; [done|]. rewrite Hcands.
      apply elem_of_app. right. apply list_elem_of_here.
Qed.

(** *** Locks and registry along an execution *)

Lemma marker_of_inj_all d k : marker_of d = marker_of k → d = k.
Proof.
  intros Heq. destruct (decide (k = "")) as [->|Hk]; [|by apply marker_of_inj].
  destruct (decide (d = "")) as [->|Hd]; [done|].
  symmetry. by apply marker_of_inj.
Qed.

Lemma dispose_locks a w r w' :
  registry_ok w → (∀ d, holds_lock w d → registered w d) →
  lockFile a = None ∨ lockFile a = Some (LockFile_new (path a)) →
  dispose a w = (r, w') →
  w' = w ∨
  (USED_TEMP_DIRS (proc w') = js_delete (path a) (USED_TEMP_DIRS (proc w)) ∧
   ¬ holds_lock w' (path a) ∧
   ∀ d, d ≠ path a → holds_lock w' d ↔ holds_lock w d).
Proof.
  intros Hok Hheld Hlock. rewrite dispose_eq.
  destruct (negb _); [intros [= <- <-]; by left|].
  destruct Hlock as [->| ->]; [intros [= <- <-]; by left|].
  change (lf_path (LockFile_new (path a))) with (marker_of (path a)).
  destruct (fs_unlink _ _) as [e|f'] eqn:Hu; intros [= <- <-]; right;
    (split; [done|]); unfold holds_lock; simpl.
  - split; [|done]. intros Hh.
    destruct (Hheld _ Hh) as [v Hv%own_get_Some_elem_of].
    destruct (Hok _ _ Hv) as (_ & _ & Hne & Hdir).
    pose proof (fs_unlink_inl _ _ _ _ Hu (marker_split _ Hne) Hdir) as Hfile.
    by rewrite Hh in Hfile.
  - split.
    + rewrite (fs_unlink_lookup _ _ _ (marker_of (path a)) Hu). by rewrite decide_True.
    + intros d Hd. rewrite (fs_unlink_file _ _ _ _ _ Hu).
      split; [by intros [_ ?]|]. intros Hh. split; [|done].
      intros Heq%marker_of_inj_all. done.
Qed.

Lemma forEach_dispose_preserves (Inv : World → Prop) l w r w' :
  (∀ v w r w', v ∈ l → Inv w → dispose v w = (r, w') → Inv w') →
  Inv w → forEach (λ tmpDir, dispose tmpDir;; mret tt) l w = (r, w') → Inv w'.
Proof.
  revert w. induction l as [|x l IH]; intros w Hstep Hinv; simpl.
  - by intros [= <- <-].
  - unfold mbind at 1, M_bind at 1. unfold mbind at 1, M_bind at 1.
    destruct (dispose x w) as [[a|e] w1] eqn:Hd.
    + unfold mret at 1, M_ret at 1. apply IH.
      * intros v w0 r0 w0' Hv. apply Hstep. by apply list_elem_of_further.
      * eapply Hstep; [apply list_elem_of_here|done..].
    + intros [= <- <-]. eapply Hstep; [apply list_elem_of_here|done..].
Qed.

(** The two invariants together: the registry is as [init] leaves it, and
    a lock this process holds is registered. *)
Lemma held_registered_init this w r w' :
  (∀ d, holds_lock w d → registered w d) → init this w = (r, w') →
  ∀ d, holds_lock w' d → registered w' d.
Proof.
  intros Hheld Hinit d. unfold holds_lock, registered.
  destruct (init_effect _ _ _ _ Hinit) as (-> & _ & _ & Hr).
  destruct r as [a|e].
  - destruct Hr as (-> & _ & _ & _ & _ & Hfiles).
    rewrite own_get_js_set. intros [Hd|[Hd%marker_of_inj_all _]]%Hfiles.
    + case_decide; [done|]. by apply Hheld.
    + by rewrite decide_True.
  - destruct Hr as (-> & Hfiles). intros Hd%Hfiles. by apply Hheld.
Qed.

Lemma held_registered_dispose a w r w' :
  registry_ok w ∧ (∀ d, holds_lock w d → registered w d) →
  lockFile a = None ∨ lockFile a = Some (LockFile_new (path a)) →
  dispose a w = (r, w') →
  registry_ok w' ∧ (∀ d, holds_lock w' d → registered w' d).
Proof.
  intros [Hok Hheld] Hlock Hd. split; [by eapply dispose_registry_ok|].
  destruct (dispose_locks _ _ _ _ Hok Hheld Hlock Hd) as [->|(Hreg & Hno & Hother)];
    [done|].
  intros d Hh. destruct (decide (d = path a)) as [->|Hne]; [done|].
  unfold registered. rewrite Hreg, own_get_js_delete, decide_False by done.
  by apply Hheld, Hother.
Qed.

Lemma registry_values_lock w v :
  registry_ok w → v ∈ Object_values (USED_TEMP_DIRS (proc w)) →
  lockFile v = None ∨ lockFile v = Some (LockFile_new (path v)).
Proof.
  intros Hok ([k v'] & -> & Hkv)%list_elem_of_fmap. simpl.
  destruct (Hok _ _ Hkv) as (-> & -> & _). by right.
Qed.

Lemma obj_wf_lock a :
  obj_wf a → lockFile a = None ∨ lockFile a = Some (LockFile_new (path a)).
Proof. intros [[_ ?]|[_ ?]]; [by left|by right]. Qed.

Lemma reachable_held_registered w :
  reachable w → registry_ok w ∧ (∀ d, holds_lock w d → registered w d).
Proof.
  induction 1 as [w [Hreg Hfiles]|w prefix r w' Hw IH Hc|w a r w' _ IH Hwf Hd|w r w' _ IH Hd].
  - split; [apply reachable_registry_ok; by constructor|].
    intros d Hd. by destruct (Hfiles _ Hd).
  - destruct IH as [Hok Hheld].
    split; [by eapply init_registry_ok|by eapply held_registered_init].
  - eapply held_registered_dispose; eauto using obj_wf_lock.
  - unfold disposeDirectories, registry_values in Hd.
    rewrite (bind_Ok _ _ w (Object_values (USED_TEMP_DIRS (proc w))) w) in Hd by done.
    eapply (forEach_dispose_preserves
              (λ w0, registry_ok w0 ∧ (∀ d, holds_lock w0 d → registered w0 d)));
      [|exact IH|exact Hd].
    intros v w0 r0 w0' Hv Hinv. apply held_registered_dispose; [done|].
    by eapply registry_values_lock; [apply IH|].
Qed.

Lemma locked_run_reachable w : locked_run w → reachable w.
Proof. induction 1; by econstructor. Qed.

Lemma locked_dispose a w r w' :
  registry_ok w ∧ (∀ d, registered w d ↔ holds_lock w d) →
  lockFile a = None ∨ lockFile a = Some (LockFile_new (path a)) →
  dispose a w = (r, w') →
  registry_ok w' ∧ (∀ d, registered w' d ↔ holds_lock w' d).
Proof.
  intros [Hok Hiff] Hlock Hd. split; [by eapply dispose_registry_ok|].
  destruct (dispose_locks _ _ _ _ Hok (λ d, proj2 (Hiff d)) Hlock Hd)
    as [->|(Hreg & Hno & Hother)]; [done|].
  intros d. unfold registered. rewrite Hreg, own_get_js_delete.
  destruct (decide (d = path a)) as [->|Hne].
  - split; [by intros [? ?]|done].
  - rewrite (Hother d Hne). apply Hiff.
Qed.

Lemma locked_run_iff w :
  locked_run w → registry_ok w ∧ (∀ d, registered w d ↔ holds_lock w d).
Proof.
  induction 1 as [w Hinit|w prefix r w' Hw IH Hc Hacq|w a r w' _ IH Hwf Hd|w r w' _ IH Hd].
  - split; [apply reachable_registry_ok; by constructor|].
    destruct Hinit as [Hreg Hfiles]. intros d. unfold registered. rewrite Hreg. simpl.
    split; [by intros [? ?]|]. intros Hd. by destruct (Hfiles _ Hd).
  - destruct IH as [Hok Hiff]. split; [by eapply init_registry_ok|].
    intros d. split; [|eapply held_registered_init; [|done]; intros d'; apply Hiff].
    destruct (init_effect _ _ _ _ Hc) as (Hpid & _ & Hkeep & Hr).
    unfold registered. destruct r as [a|e].
    + destruct Hr as (-> & _). rewrite own_get_js_set.
      case_decide as Hda; [subst d; intros _; by apply Hacq|].
      intros Hd%Hiff. unfold holds_lock in *. rewrite Hpid. by apply Hkeep.
    + destruct Hr as (-> & _).
      intros Hd%Hiff. unfold holds_lock in *. rewrite Hpid. by apply Hkeep.
  - eapply locked_dispose; eauto using obj_wf_lock.
  - unfold disposeDirectories, registry_values in Hd.
    rewrite (bind_Ok _ _ w (Object_values (USED_TEMP_DIRS (proc w))) w) in Hd by done.
    eapply (forEach_dispose_preserves
              (λ w0, registry_ok w0 ∧ (∀ d, registered w0 d ↔ holds_lock w0 d)));
      [|exact IH|exact Hd].
    intros v w0 r0 w0' Hv Hinv. apply locked_dispose; [done|].
    by eapply registry_values_lock; [apply IH|].
Qed.

(** C4, as it holds.  After any sequence of allocations and releases, a
    directory whose lock this process holds is a key of the registry; and
    along the executions in which every allocation ended up holding the
    lock of its directory, a path is a key of the registry exactly when
    this process holds its lock. *)
Theorem registry_tracks_locks (w : World) (d : string) :
  reachable w →
  (holds_lock w d → registered w d) ∧
  (locked_run w → (registered w d ↔ holds_lock w d)).
Proof.
  intros Hreach. split.
  - by apply reachable_held_registered.
  - intros Hrun. by apply locked_run_iff.
Qed.

(** [init] is its two halves run one after the other. *)
Lemma init_split this w :
  init this w = (init_before_await this ≫= init_after_await) w.
Proof.
  unfold init, init_before_await, init_after_await, mbind, M_bind.
  destruct (ensureDir _ w) as [[[]|e] w1]; [|done].
  destruct (_getTmpDirsList this w1) as [[l|e] w2]; [|done].
  destruct (_findFreeTmpDir this l w2) as [[[this' []]|e] w3]; [done| |done].
  unfold _createNewTmpDir, _createNewTmpDir_before_await, _createNewTmpDir_after_await,
    mbind, M_bind.
  destruct (tmpNameSync _ _ w3) as [[p|e] w4]; [|done]. simpl.
  by destruct (ensureDir p w4) as [[[]|e] w5].
Qed.

(** *** The first filter of [_getTmpDirsList] *)

Lemma reachable_registry_in_pool w : reachable w → registry_in_pool w.
Proof.
  induction 1 as [w [Hreg _]|w prefix r w' _ IH Hc|w a r w' _ IH _ Hd|w r w' _ IH Hd].
  - intros k v. rewrite Hreg. by intros ?%elem_of_nil.
  - destruct (init_effect _ _ _ _ Hc) as (_ & _ & _ & Hr). intros k v.
    destruct r as [a|e].
    + destruct Hr as (-> & _ & Hname & _).
      intros [[= -> ->]|Hkv]%elem_of_js_set; [done|by eapply IH].
    + destruct Hr as (-> & _). apply IH.
  - revert Hd. rewrite dispose_eq.
    destruct (negb _); [by intros [= <- <-]|].
    destruct (lockFile a); intros [= <- <-]; [|done].
    intros k v [_ Hkv]%elem_of_js_delete. exact (IH k v Hkv).
  - unfold disposeDirectories, registry_values in Hd.
    rewrite (bind_Ok _ _ w (Object_values (USED_TEMP_DIRS (proc w))) w) in Hd by done.
    eapply (forEach_dispose_preserves registry_in_pool); [|exact IH|exact Hd].
    clear. intros v w0 r0 w0' _ Hin. rewrite dispose_eq.
    destruct (negb _); [by intros [= <- <-]|].
    destruct (lockFile v); intros [= <- <-]; [|done].
    intros k v' [_ Hkv]%elem_of_js_delete. exact (Hin k v' Hkv).
Qed.

Lemma pool_path_not_plain tmpDirName :
  os_tmpdir ≠ "" → plain (path_join TESTCAFE_TMP_DIRS_ROOT tmpDirName) = false.
Proof.
  intros Htmp.
  assert (plain TESTCAFE_TMP_DIRS_ROOT = false) as Hroot.
  { unfold TESTCAFE_TMP_DIRS_ROOT, path_join.
    rewrite bool_decide_eq_false_2 by done. apply plain_app_sep. }
  unfold path_join. rewrite (bool_decide_eq_false_2 _ ROOT_nonempty).
  case_bool_decide; [done|apply plain_app_sep].
Qed.

(** The listing gives names, the registry is keyed by paths: on a name the
    lookup [USED_TEMP_DIRS[tmpDir]] finds no entry of the registry, only
    what [Object.prototype] provides. *)
Lemma registry_lookup_by_name w tmpDir :
  os_tmpdir ≠ "" → reachable w → plain tmpDir = true →
  js_truthy_get (USED_TEMP_DIRS (proc w)) tmpDir =
    bool_decide (tmpDir ∈ Object_prototype_keys).
Proof.
  intros Htmp Hin%reachable_registry_in_pool Hplain. unfold js_truthy_get.
  rewrite bool_decide_eq_false_2; [done|].
  intros [v [name ->]%own_get_Some_elem_of%Hin].
  by rewrite pool_path_not_plain in Hplain.
Qed.

(** Hence a directory of the pool stays a candidate while this process has
    it registered. *)
Lemma registered_dir_stays_candidate w prefix tmpDirNames tmpDir :
  os_tmpdir ≠ "" → reachable w →
  tmpDir ∈ tmpDirNames → plain tmpDir = true → tmpDir ∉ Object_prototype_keys →
  startsWith tmpDir prefix = true →
  registered w (path_join TESTCAFE_TMP_DIRS_ROOT tmpDir) →
  tmpDir ∈ candidates (USED_TEMP_DIRS (proc w)) prefix tmpDirNames.
Proof.
  intros Htmp Hreach Hin Hplain Hproto Hprefix _. unfold candidates.
  rewrite list_elem_of_In, !filter_In, <- list_elem_of_In.
  rewrite (basename_plain _ Hplain), (registry_lookup_by_name w tmpDir) by done.
  by rewrite bool_decide_eq_false_2.
Qed.

(** ** Further properties of the module *)

(** *** The lock file *)

Lemma switch_to_proc w : switch_to (proc w) w = w.
Proof. by destruct w. Qed.

Lemma fs_unlink_file_ok p f c d b :
  nodes f !! p = Some (File c) → split_last_sep p = (Some d, b) →
  writable_dir f d → ∃ f', fs_unlink p f = inr f'.
Proof.
  intros Hp Hs (r & es & Hd). unfold fs_unlink. rewrite Hp, Hs, Hd. simpl. by eexists.
Qed.

(** X1.  Once [init] has answered [true], the marker excludes everybody:
    a further [init] on the same lock file, by the same process or by any
    other one, answers [false] and leaves the world as it is. *)
Theorem lock_excludes_every_process (this : LockFile) (w w1 : World) (other : Proc) :
  LockFile_init this w = (Ok true, w1) →
  LockFile_init this w1 = (Ok false, w1) ∧
  LockFile_init this (switch_to other w1) = (Ok false, switch_to other w1).
Proof.
  intros Hinit. split; [|by eapply marker_is_exclusive].
  pose proof (marker_is_exclusive this w w1 (proc w1) Hinit) as Hself.
  by rewrite switch_to_proc in Hself.
Qed.

(** X2.  Acquire, then release.  After an [init] that answered [true],
    [dispose] removes the marker: the path is free again, the inode is given
    back, every node other than the directory of the marker is what it was
    before the [init], the process is unchanged, and a new [init] answers
    [true] again. *)
Theorem lock_acquire_release (this : LockFile) (w w1 : World) :
  LockFile_init this w = (Ok true, w1) →
  ∃ w2, LockFile_dispose this w1 = (Ok tt, w2) ∧
    nodes (fs w2) !! lf_path this = None ∧
    free_inodes (fs w2) = free_inodes (fs w) ∧
    proc w2 = proc w ∧
    (∀ q, (split_last_sep (lf_path this)).1 ≠ Some q →
          nodes (fs w2) !! q = nodes (fs w) !! q) ∧
    ∃ w3, LockFile_init this w2 = (Ok true, w3).
Proof.
  rewrite LockFile_init_eq. unfold fs_open_excl.
  destruct (nodes (fs w) !! lf_path this) eqn:Hn; [done|].
  destruct (fs_create _ _ _) as [e|f1] eqn:Hc; [done|]. intros [= <-].
  pose proof (fs_create_lookup _ _ _ _ (lf_path this) Hn Hc) as Hp1.
  rewrite decide_True in Hp1 by done.
  destruct (fs_create_inr _ _ _ _ Hc) as (d & b & r & es & k & Hs & Hd & Hk & Hf1).
  assert (writable_dir f1 d) as Hd1.
  { eapply fs_create_writable_dir; [exact Hn|exact Hc|by exists r, es]. }
  destruct (fs_unlink_file_ok _ _ _ _ _ Hp1 Hs Hd1) as [f2 Hu].
  rewrite LockFile_dispose_eq. simpl. rewrite Hu.
  assert (nodes f2 !! lf_path this = None) as Hp2.
  { rewrite (fs_unlink_lookup _ _ _ (lf_path this) Hu). by rewrite decide_True. }
  destruct (fs_unlink_writable_dir _ _ _ d Hu Hd1) as (r2 & es2 & Hd2).
  assert (free_inodes f2 = free_inodes (fs w)) as Hfree.
  { destruct (fs_unlink_inr _ _ _ Hu) as (? & ? & ? & ? & ? & _ & _ & _ & ->).
    rewrite Hf1, Hk. done. }
  eexists. split; [done|]. simpl. split_and!; try done.
  - intros q Hq. rewrite Hs in Hq. simpl in Hq.
    rewrite (fs_unlink_lookup _ _ _ q Hu), (fs_create_lookup _ _ _ _ q Hn Hc), Hs.
    destruct (decide (q = lf_path this)) as [->|_]; [done|].
    destruct (nodes (fs w) !! q) as [[?|? ? ?]|]; try done.
    rewrite !decide_False; [done|congruence..].
  - rewrite LockFile_init_eq. unfold fs_open_excl, fs_create. simpl.
    rewrite Hp2, Hs, Hd2, Hfree, Hk. simpl. by eexists.
Qed.

(** *** More on what [init] does *)

Lemma init_frame this w r w' :
  init this w = (r, w') →
  open_fds (proc w') = open_fds (proc w) ∧
  (∀ q, is_dir (nodes (fs w) !! q) = true → is_dir (nodes (fs w') !! q) = true) ∧
  (∀ a, r = Ok a → is_dir (nodes (fs w') !! TESTCAFE_TMP_DIRS_ROOT) = true).
Proof.
  rewrite init_eq, ensureDir_eq.
  destruct (fs_mkdirp _ _ (fs w)) as [e|f1] eqn:Hroot.
  { by intros [= <- <-]. }
  destruct (fs_mkdirp_inr _ _ _ _ Hroot) as (_ & _ & Hd1 & Hrootdir & _).
  rewrite _getTmpDirsList_eq. simpl.
  destruct (fs_readdir _ f1) as [e|tmpDirNames].
  { by intros [= <- <-]. }
  destruct (_findFreeTmpDir_spec this
              (candidates (USED_TEMP_DIRS (proc w)) (namePrefix this) tmpDirNames)
              (set_fs f1 w)) as [[_ ->]|(l1 & d & l2 & f2 & _ & _ & Ho & ->)].
  - rewrite _createNewTmpDir_eq.
    destruct (tmpNameSync _ _ _) as [[p|e] w1] eqn:Htmp.
    2:{ apply tmpName_tries_spec in Htmp as [[n ->] _]. by intros [= <- <-]. }
    apply tmpName_tries_spec in Htmp as [[n ->] _]. simpl.
    destruct (fs_mkdirp _ p f1) as [e|f2] eqn:Hmk.
    { by intros [= <- <-]. }
    destruct (fs_mkdirp_inr _ _ _ _ Hmk) as (_ & _ & Hd2 & _ & _).
    destruct (fs_open_excl _ _ f2) as [e|f3] eqn:Ho; intros [= <- <-]; simpl.
    + split_and!; [done|by auto|by auto].
    + split_and!; [done| |].
      * intros q Hq. rewrite (fs_open_excl_is_dir _ _ _ _ q Ho). by auto.
      * intros _ _. rewrite (fs_open_excl_is_dir _ _ _ _ _ Ho). by auto.
  - simpl in Ho. intros [= <- <-]. simpl. split_and!; [done| |].
    + intros q Hq. rewrite (fs_open_excl_is_dir _ _ _ _ q Ho). by auto.
    + intros _ _. by rewrite (fs_open_excl_is_dir _ _ _ _ _ Ho).
Qed.

(** Where the directory of a successful [init] comes from: a candidate whose
    marker did not exist, or a fresh name under which nothing existed; both
    are seen on the file system as [ensureDir] of the pool root left it. *)
Lemma init_result_origin this w a w' :
  init this w = (Ok a, w') →
  ∃ f1, fs_mkdirp (String.length TESTCAFE_TMP_DIRS_ROOT) TESTCAFE_TMP_DIRS_ROOT (fs w)
        = inr f1 ∧
    ((∃ tmpDirNames d,
        fs_readdir TESTCAFE_TMP_DIRS_ROOT f1 = inr tmpDirNames ∧
        d ∈ candidates (USED_TEMP_DIRS (proc w)) (namePrefix this) tmpDirNames ∧
        path a = path_join TESTCAFE_TMP_DIRS_ROOT d ∧
        nodes f1 !! marker_of (path a) = None) ∨
     (∃ m, path a = path_join TESTCAFE_TMP_DIRS_ROOT
                      ((namePrefix this +:+ "-") +:+ tmp_random (proc w) m) ∧
           nodes f1 !! path a = None)).
Proof.
  rewrite init_eq, ensureDir_eq.
  destruct (fs_mkdirp _ _ (fs w)) as [e|f1] eqn:Hroot; [done|].
  rewrite _getTmpDirsList_eq. simpl.
  destruct (fs_readdir _ f1) as [e|tmpDirNames] eqn:Hls; [done|].
  destruct (_findFreeTmpDir_spec this
              (candidates (USED_TEMP_DIRS (proc w)) (namePrefix this) tmpDirNames)
              (set_fs f1 w)) as [[_ ->]|(l1 & d & l2 & f2 & Hcands & _ & Ho & ->)].
  - rewrite _createNewTmpDir_eq.
    destruct (tmpNameSync _ _ _) as [[p|e] w1] eqn:Htmp; [|done].
    apply tmpName_tries_spec in Htmp as [[n ->] Hp]. simpl.
    destruct (Hp p eq_refl) as [Hnone [m Hname]]. simpl in Hnone, Hname.
    destruct (fs_mkdirp _ p f1) as [e|f2] eqn:Hmk; [done|].
    intros [= <- <-]. exists f1. split; [done|]. right. exists m. by simpl.
  - simpl in Ho. intros [= <- <-]. exists f1. split; [done|]. left.
    exists tmpDirNames, d. simpl. split_and!; try done.
    + rewrite Hcands. apply elem_of_app. right. apply list_elem_of_here.
    + by apply fs_open_excl_inr in Ho as [? _].
Qed.

Lemma fs_mkdirp_keeps_nodes fuel p f f' q :
  fs_mkdirp fuel p f = inr f' → nodes f !! q ≠ None → nodes f' !! q ≠ None.
Proof.
  intros (_ & Hfiles & Hdirs & _)%fs_mkdirp_inr Hq.
  destruct (nodes f !! q) as [[c|r wr es]|] eqn:Hn; [| |done].
  - by rewrite (proj2 (Hfiles q c) Hn).
  - specialize (Hdirs q). rewrite Hn in Hdirs. intros Hnone.
    rewrite Hnone in Hdirs. by specialize (Hdirs eq_refl).
Qed.

Lemma startsWith_app p x y : startsWith ((p +:+ x) +:+ y) p = true.
Proof.
  unfold startsWith. induction p as [|c p IH]; [by destruct ((_ +:+ x) +:+ y)|].
  rewrite !append_cons. simpl. by destruct (ascii_dec c c).
Qed.

(** With a prefix and suffixes that are single segments, the directory of
    a successful [init] is listed in the pool root under a name that starts
    with the prefix; if it was there before, its lock is now held. *)
Lemma init_result_listed this w a w' :
  plain (namePrefix this) = true →
  (∀ n, plain (tmp_random (proc w) n) = true) →
  init this w = (Ok a, w') →
  ∃ tmpDirName,
    path a = path_join TESTCAFE_TMP_DIRS_ROOT tmpDirName ∧
    pool_entry (fs w') tmpDirName ∧
    startsWith (basename tmpDirName) (namePrefix this) = true ∧
    (is_dir (nodes (fs w) !! path a) = true → holds_lock w' (path a)).
Proof.
  intros Hprefix Hrandom. rewrite init_eq, ensureDir_eq.
  destruct (fs_mkdirp _ _ (fs w)) as [e|f1] eqn:Hroot; [done|].
  destruct (fs_mkdirp_inr _ _ _ _ Hroot) as (_ & _ & Hdirs & Hrootdir & _).
  rewrite _getTmpDirsList_eq. simpl.
  destruct (fs_readdir _ f1) as [e|tmpDirNames] eqn:Hls; [done|].
  destruct (_findFreeTmpDir_spec this
              (candidates (USED_TEMP_DIRS (proc w)) (namePrefix this) tmpDirNames)
              (set_fs f1 w)) as [[_ ->]|(l1 & d & l2 & f2 & Hcands & _ & Ho & ->)].
  - rewrite _createNewTmpDir_eq.
    destruct (tmpNameSync _ _ _) as [[p|e] w1] eqn:Htmp; [|done].
    apply tmpName_tries_spec in Htmp as [[n ->] Hp]. simpl.
    destruct (Hp p eq_refl) as [Hnone [m Hname]]. simpl in Hnone, Hname.
    set (tmpDirName := (namePrefix this +:+ "-") +:+ tmp_random (proc w) m) in *.
    assert (plain tmpDirName = true) as Hplain.
    { unfold tmpDirName. by rewrite !plain_app, Hprefix, Hrandom. }
    assert (tmpDirName ≠ "") as Hne by (unfold tmpDirName; by destruct (namePrefix this)).
    destruct (fs_mkdirp _ p f1) as [e|f2] eqn:Hmk; [done|].
    assert (pool_entry f2 tmpDirName) as Hentry.
    { rewrite Hname in Hmk, Hnone. by eapply fs_mkdirp_pool_entry. }
    assert (startsWith (basename tmpDirName) (namePrefix this) = true) as Hstart.
    { rewrite (basename_plain _ Hplain). apply startsWith_app. }
    assert (is_dir (nodes (fs w) !! p) = true → False) as Hfresh.
    { intros Hwas%Hdirs. by rewrite Hnone in Hwas. }
    destruct (fs_open_excl _ _ f2) as [e|f3] eqn:Ho; intros [= <- <-]; simpl;
      exists tmpDirName; split_and!; try done.
    by eapply fs_open_excl_pool_entry.
  - simpl in Ho. intros [= <- <-]. simpl. exists d.
    assert (d ∈ candidates (USED_TEMP_DIRS (proc w)) (namePrefix this) tmpDirNames) as Hd.
    { rewrite Hcands. apply elem_of_app. right. apply list_elem_of_here. }
    unfold candidates in Hd.
    apply list_elem_of_In, filter_In in Hd as [[Hin _]%filter_In Hstart].
    split_and!; [done| |done|].
    + eapply fs_open_excl_pool_entry; [exact Ho|].
      unfold fs_readdir in Hls.
      destruct (nodes f1 !! TESTCAFE_TMP_DIRS_ROOT) as [[c|r wr es]|] eqn:Hn; try done.
      destruct r; [|done]. injection Hls as <-.
      exists true, wr, es. split; [done|]. by apply list_elem_of_In.
    + intros _. unfold holds_lock. simpl.
      apply (fs_open_excl_file _ _ _ _ _ _ Ho). by left.
Qed.

(** X3.  What a successful [createDirectory] hands out, the prefix being a
    single path segment, as the interface asks, and the suffixes of the
    [tmp] package too: an object with the given prefix, a path one segment
    below the pool root, under a name that the pool root lists, and the
    lock file of that path; the path is a directory on disk in which files
    can be created, the pool root is a directory, and the registry maps the
    path to the object.  A directory that was there before the call is
    handed out only with its lock held. *)
Theorem createDirectory_postcondition (prefix : string) (w w' : World) (a : TempDirectory) :
  plain prefix = true →
  (∀ n, plain (tmp_random (proc w) n) = true) →
  createDirectory prefix w = (Ok a, w') →
  namePrefix a = prefix ∧
  (∃ tmpDirName,
     path a = path_join TESTCAFE_TMP_DIRS_ROOT tmpDirName ∧
     pool_entry (fs w') tmpDirName) ∧
  lockFile a = Some (LockFile_new (path a)) ∧
  is_dir (nodes (fs w') !! TESTCAFE_TMP_DIRS_ROOT) = true ∧
  writable_dir (fs w') (path a) ∧
  own_get (path a) (USED_TEMP_DIRS (proc w')) = Some a ∧
  (is_dir (nodes (fs w) !! path a) = true → holds_lock w' (path a)).
Proof.
  intros Hprefix Hrandom Hc.
  destruct (init_effect _ _ _ _ Hc) as (_ & _ & _ & Hreg & Hpre & _ & Hlock & Hdir & _).
  destruct (init_frame _ _ _ _ Hc) as (_ & _ & Hroot).
  destruct (init_result_listed (TempDirectory_new prefix) _ _ _ Hprefix Hrandom Hc)
    as (name & Hname & Hentry & _ & Hheld).
  split_and!; try done; [by exists name|by eapply Hroot|].
  by rewrite Hreg, own_get_js_set, decide_True.
Qed.

(** X4.  [createDirectory] only adds.  Whatever its outcome, every
    directory and every file that existed still exists, and every key of
    the registry is still a key.  The only file that can be new is the
    marker of the directory it returns, created by this process; when it
    rejects, no file is new and the registry is what it was. *)
Theorem createDirectory_only_adds (prefix : string) (w w' : World) (r : Res TempDirectory) :
  createDirectory prefix w = (r, w') →
  (∀ q, is_dir (nodes (fs w) !! q) = true → is_dir (nodes (fs w') !! q) = true) ∧
  (∀ q c, nodes (fs w) !! q = Some (File c) → nodes (fs w') !! q = Some (File c)) ∧
  (∀ d, registered w d → registered w' d) ∧
  (∀ q c, nodes (fs w') !! q = Some (File c) →
          nodes (fs w) !! q = Some (File c) ∨
          ∃ a, r = Ok a ∧ q = marker_of (path a) ∧ c = pid (proc w)) ∧
  (∀ e, r = Throw e → USED_TEMP_DIRS (proc w') = USED_TEMP_DIRS (proc w)).
Proof.
  intros Hc.
  destruct (init_effect _ _ _ _ Hc) as (_ & _ & Hkeep & Hr).
  destruct (init_frame _ _ _ _ Hc) as (_ & Hdirs & _).
  split; [done|]. split; [done|]. destruct r as [a|e].
  - destruct Hr as (Hreg & _ & _ & _ & _ & Hnew). split_and!.
    + intros d Hd. unfold registered. rewrite Hreg, own_get_js_set.
      by case_decide.
    + intros q c [?|[-> ->]]%Hnew; [by left|]. right. by exists a.
    + done.
  - destruct Hr as (Hreg & Hnew). split_and!.
    + intros d. unfold registered. by rewrite Hreg.
    + intros q c ?%Hnew. by left.
    + done.
Qed.

(** X5.  A directory that exists and carries a marker file, whoever created
    the marker, is never the directory that [createDirectory] returns. *)
Theorem allocation_avoids_locked_dir
    (prefix d : string) (w w' : World) (a : TempDirectory) :
  nodes (fs w) !! d ≠ None →
  is_file (nodes (fs w) !! marker_of d) = true →
  createDirectory prefix w = (Ok a, w') →
  path a ≠ d.
Proof.
  intros Hd Hm Hc Heq.
  destruct (init_result_origin _ _ _ _ Hc)
    as (f1 & Hroot & [(names & c & _ & _ & _ & Hnone)|(m & _ & Hnone)]).
  - destruct (nodes (fs w) !! marker_of d) as [[o|? ? ?]|] eqn:Hmd; try done.
    destruct (fs_mkdirp_inr _ _ _ _ Hroot) as (_ & Hfiles & _).
    rewrite Heq, (proj2 (Hfiles (marker_of d) o) Hmd) in Hnone. done.
  - rewrite Heq in Hnone. by eapply fs_mkdirp_keeps_nodes.
Qed.

(** X6.  The prefix and the random suffixes being single path segments,
    the directory that [createDirectory] returns is an entry of the pool
    root whose name starts with the prefix. *)
Theorem allocation_name_starts_with_prefix
    (prefix : string) (w w' : World) (a : TempDirectory) :
  plain prefix = true →
  (∀ n, plain (tmp_random (proc w) n) = true) →
  createDirectory prefix w = (Ok a, w') →
  ∃ tmpDirName,
    path a = path_join TESTCAFE_TMP_DIRS_ROOT tmpDirName ∧
    startsWith (basename tmpDirName) prefix = true.
Proof.
  intros Hprefix Hrandom Hc.
  destruct (init_result_origin _ _ _ _ Hc)
    as (f1 & _ & [(names & d & _ & Hd & Hpath & _)|(m & Hpath & _)]).
  - exists d. split; [done|]. unfold candidates in Hd.
    by apply list_elem_of_In, filter_In in Hd as [_ ?].
  - eexists. split; [exact Hpath|]. simpl.
    rewrite basename_plain; [apply startsWith_app|].
    by rewrite !plain_app, Hprefix, Hrandom.
Qed.

(** *** More on releasing *)

(** What one [dispose] can change: nothing but the file its lock file names
    and the registry entry under its path. *)
Lemma dispose_frame a w r w' :
  dispose a w = (r, w') →
  open_fds (proc w') = open_fds (proc w) ∧
  (∀ q, is_dir (nodes (fs w') !! q) = is_dir (nodes (fs w) !! q)) ∧
  (∀ q c, nodes (fs w') !! q = Some (File c) → nodes (fs w) !! q = Some (File c)) ∧
  (∀ q c, nodes (fs w) !! q = Some (File c) → lockFile a ≠ Some (mkLockFile q) →
          nodes (fs w') !! q = Some (File c)) ∧
  (∀ k, k ≠ path a →
        own_get k (USED_TEMP_DIRS (proc w')) = own_get k (USED_TEMP_DIRS (proc w))) ∧
  (USED_TEMP_DIRS (proc w') = USED_TEMP_DIRS (proc w) ∨
   USED_TEMP_DIRS (proc w') = js_delete (path a) (USED_TEMP_DIRS (proc w))).
Proof.
  rewrite dispose_eq.
  destruct (negb _); [intros [= <- <-]; split_and!; by auto|].
  destruct (lockFile a) as [[p]|]; [|intros [= <- <-]; split_and!; by auto].
  simpl. destruct (fs_unlink p (fs w)) as [e|f'] eqn:Hu; intros [= <- <-]; simpl.
  - split_and!; try done; [|by right].
    intros k Hk. by rewrite own_get_js_delete, decide_False.
  - split_and!; try done.
    + intros q. by eapply fs_unlink_is_dir.
    + intros q c. rewrite (fs_unlink_file _ _ _ q c Hu). by intros [_ ?].
    + intros q c Hq Hne. rewrite (fs_unlink_file _ _ _ q c Hu). split; [|done].
      intros ->. done.
    + intros k Hk. by rewrite own_get_js_delete, decide_False.
    + by right.
Qed.

(** X7.  [dispose] touches nothing but its own lock.  Whatever its outcome,
    the directories of the file system are those from before, no file is
    new, every file other than the one its [lockFile] names is still there,
    and every registry entry under another path is unchanged. *)
Theorem dispose_touches_only_its_lock (a : TempDirectory) (w w' : World) (r : Res TempDirectory) :
  dispose a w = (r, w') →
  (∀ q, is_dir (nodes (fs w') !! q) = is_dir (nodes (fs w) !! q)) ∧
  (∀ q c, nodes (fs w') !! q = Some (File c) → nodes (fs w) !! q = Some (File c)) ∧
  (∀ q c, nodes (fs w) !! q = Some (File c) → lockFile a ≠ Some (mkLockFile q) →
          nodes (fs w') !! q = Some (File c)) ∧
  (∀ k, k ≠ path a →
        own_get k (USED_TEMP_DIRS (proc w')) = own_get k (USED_TEMP_DIRS (proc w))).
Proof. intros (_ & ? & ? & ? & ? & _)%dispose_frame. done. Qed.

(** X8.  A directory released by [dispose] can be claimed again.  For a
    registered allocation whose lock this process holds, [dispose] removes
    the marker and leaves the directory writable with an inode free, so that
    the lock of that pool entry can be acquired anew. *)
Theorem released_dir_is_claimable (a : TempDirectory) (w : World) :
  reachable w →
  own_get (path a) (USED_TEMP_DIRS (proc w)) = Some a →
  holds_lock w (path a) →
  ∃ w', dispose a w = (Ok a, w') ∧
    nodes (fs w') !! marker_of (path a) = None ∧
    writable_dir (fs w') (path a) ∧
    0 < free_inodes (fs w') ∧
    (∀ tmpDirName, path a = path_join TESTCAFE_TMP_DIRS_ROOT tmpDirName →
                   can_acquire w' tmpDirName = true).
Proof.
  intros Hok%reachable_registry_ok Ha Hheld.
  destruct (Hok _ _ (own_get_Some_elem_of _ _ _ Ha)) as (_ & Hlock & Hne & Hdir).
  destruct (fs_unlink_file_ok _ _ _ _ _ Hheld (marker_split _ Hne) Hdir) as [f' Hu].
  assert (js_truthy_get (USED_TEMP_DIRS (proc w)) (path a) = true) as Ht.
  { apply registered_truthy. left. unfold registered. by rewrite Ha. }
  rewrite dispose_eq, Ht, Hlock. simpl.
  change (path_join (path a) LOCKFILE_NAME) with (marker_of (path a)). rewrite Hu.
  assert (nodes f' !! marker_of (path a) = None) as Hgone.
  { rewrite (fs_unlink_lookup _ _ _ (marker_of (path a)) Hu). by rewrite decide_True. }
  assert (writable_dir f' (path a)) as Hdir' by (by eapply fs_unlink_writable_dir).
  assert (0 < free_inodes f') as Hfree.
  { destruct (fs_unlink_inr _ _ _ Hu) as (? & ? & ? & ? & ? & _ & _ & _ & ->). simpl. lia. }
  eexists. split; [done|]. simpl. split_and!; try done.
  intros name Hname. apply unlocked_dir_can_acquire. unfold unlocked_dir. simpl.
  by rewrite <- Hname.
Qed.

Lemma disposeDirectories_empties w :
  reachable w →
  ∃ w', disposeDirectories w = (Ok tt, w') ∧ USED_TEMP_DIRS (proc w') = [].
Proof.
  intros Hok%reachable_registry_ok.
  destruct (forEach_dispose_spec (Object_values (USED_TEMP_DIRS (proc w))) w)
    as (w' & Hloop & Hreg & _).
  { intros v ([k v'] & -> & Hkv)%list_elem_of_fmap. simpl.
    destruct (Hok k v' Hkv) as (-> & ? & ? & ?).
    split_and!; try done. left. by eapply elem_of_own_get. }
  exists w'. split; [done|].
  rewrite Hreg. apply foldl_js_delete_all. intros k v Hkv.
  apply list_elem_of_fmap. exists v. split; [by destruct (Hok k v Hkv) as (-> & _)|].
  apply list_elem_of_fmap. by exists (k, v).
Qed.

(** X9.  After [disposeDirectories] nothing is left to release: [dispose]
    of any allocation of this process and a second [disposeDirectories]
    return normally and change nothing. *)
Theorem nothing_to_release_after_disposeDirectories (a : TempDirectory) (w : World) :
  reachable w → obj_wf a →
  ∃ w', disposeDirectories w = (Ok tt, w') ∧
    dispose a w' = (Ok a, w') ∧
    disposeDirectories w' = (Ok tt, w').
Proof.
  intros (w' & Hrun & Hreg)%disposeDirectories_empties Hwf.
  exists w'. split_and!; [done| |].
  - rewrite dispose_eq.
    destruct (js_truthy_get _ _) eqn:Ht; [|done].
    apply registered_truthy in Ht as [[v Hv]|Hp].
    + by rewrite Hreg in Hv.
    + destruct Hwf as [[Hpath _]|[[name Hname] _]].
      * rewrite Hpath in Hp. unfold Object_prototype_keys in Hp.
        repeat (apply elem_of_cons in Hp as [?|Hp]; [done|]). by apply elem_of_nil in Hp.
      * rewrite Hname in Hp. by apply pool_path_not_prototype in Hp.
  - unfold disposeDirectories, registry_values.
    rewrite (bind_Ok _ _ w' [] w'); [done|]. by rewrite Hreg.
Qed.

Lemma js_set_keys_NoDup k v r : NoDup r.*1 → NoDup (js_set k v r).*1.
Proof.
  induction r as [|[k0 v0] r IH]; simpl.
  - intros _. apply NoDup_singleton.
  - intros [Hk0 Hr]%NoDup_cons. case_bool_decide; subst; simpl.
    + by apply NoDup_cons.
    + apply NoDup_cons. split; [|by apply IH].
      intros ([k1 v1] & Hk1 & [[= -> ->]|Hin]%elem_of_js_set)%list_elem_of_fmap;
        simpl in *; subst; [done|].
      apply Hk0, list_elem_of_fmap. by exists (k1, v1).
Qed.

Lemma js_delete_keys_NoDup k r : NoDup r.*1 → NoDup (js_delete k r).*1.
Proof.
  induction r as [|[k0 v0] r IH]; simpl; [done|].
  intros [Hk0 Hr]%NoDup_cons. case_bool_decide; simpl; [by apply IH|].
  apply NoDup_cons. split; [|by apply IH].
  intros ([k1 v1] & Hk1 & [_ Hin]%elem_of_js_delete)%list_elem_of_fmap; simpl in *; subst.
  apply Hk0, list_elem_of_fmap. by exists (k1, v1).
Qed.

Lemma reachable_keys_NoDup w : reachable w → NoDup (USED_TEMP_DIRS (proc w)).*1.
Proof.
  induction 1 as [w [Hreg _]|w prefix r w' _ IH Hc|w a r w' _ IH _ Hd|w r w' _ IH Hd].
  - rewrite Hreg. apply NoDup_nil_2.
  - destruct (init_effect _ _ _ _ Hc) as (_ & _ & _ & Hr). destruct r as [a|e].
    + destruct Hr as (-> & _). by apply js_set_keys_NoDup.
    + destruct Hr as (-> & _). done.
  - destruct (dispose_frame _ _ _ _ Hd) as (_ & _ & _ & _ & _ & [-> | ->]);
      [done|by apply js_delete_keys_NoDup].
  - unfold disposeDirectories, registry_values in Hd.
    rewrite (bind_Ok _ _ w (Object_values (USED_TEMP_DIRS (proc w))) w) in Hd by done.
    eapply (forEach_dispose_preserves (λ w0, NoDup (USED_TEMP_DIRS (proc w0)).*1));
      [|exact IH|exact Hd].
    intros v w0 r0 w0' _ Hinv Hd0.
    destruct (dispose_frame _ _ _ _ Hd0) as (_ & _ & _ & _ & _ & [-> | ->]);
      [done|by apply js_delete_keys_NoDup].
Qed.

Lemma plain_run_reachable w : plain_run w → reachable w.
Proof.
  induction 1; [by apply reachable_initial|by eapply reachable_createDirectory
               |by eapply reachable_dispose|by eapply reachable_disposeDirectories].
Qed.

Lemma plain_run_registry_named w : plain_run w → registry_named w.
Proof.
  induction 1 as [w [Hreg _]|w prefix r w' _ IH Hprefix Hrandom Hc
                 |w a r w' _ IH _ Hd|w r w' _ IH Hd].
  - intros k v. rewrite Hreg. by intros ?%elem_of_nil.
  - destruct (init_effect _ _ _ _ Hc) as (_ & _ & _ & Hr). intros k v.
    destruct r as [a|e].
    + destruct Hr as (-> & Hpre & _).
      intros [[= -> ->]|Hkv]%elem_of_js_set; [|by eapply IH].
      destruct (init_result_listed (TempDirectory_new prefix) _ _ _ Hprefix Hrandom Hc)
        as (name & Hname & _ & Hs & _).
      exists name. by rewrite Hpre.
    + destruct Hr as (-> & _). apply IH.
  - revert Hd. rewrite dispose_eq.
    destruct (negb _); [by intros [= <- <-]|].
    destruct (lockFile a); intros [= <- <-]; [|done].
    intros k v [_ Hkv]%elem_of_js_delete. exact (IH k v Hkv).
  - unfold disposeDirectories, registry_values in Hd.
    rewrite (bind_Ok _ _ w (Object_values (USED_TEMP_DIRS (proc w))) w) in Hd by done.
    eapply (forEach_dispose_preserves registry_named); [|exact IH|exact Hd].
    clear. intros v w0 r0 w0' _ Hin. rewrite dispose_eq.
    destruct (negb _); [by intros [= <- <-]|].
    destruct (lockFile v); intros [= <- <-]; [|done].
    intros k v' [_ Hkv]%elem_of_js_delete. exact (Hin k v' Hkv).
Qed.

(** X10.  What the registry holds after any sequence of allocations and
    releases in which the prefixes are single path segments, as the
    interface asks, and the suffixes of the [tmp] package too: at most one
    entry per path, and under each key an object with that very path and
    the lock file of that path, the path being one segment below the pool
    root, with a name that starts with the prefix of the object, and a
    directory that exists and in which files can be created. *)
Theorem registry_entries_are_pool_dirs (w : World) (k : string) (v : TempDirectory) :
  plain_run w →
  NoDup (USED_TEMP_DIRS (proc w)).*1 ∧
  ((k, v) ∈ USED_TEMP_DIRS (proc w) →
   path v = k ∧ lockFile v = Some (LockFile_new k) ∧
   (∃ tmpDirName,
      k = path_join TESTCAFE_TMP_DIRS_ROOT tmpDirName ∧
      startsWith (basename tmpDirName) (namePrefix v) = true) ∧
   writable_dir (fs w) k ∧
   own_get k (USED_TEMP_DIRS (proc w)) = Some v).
Proof.
  intros Hrun. pose proof (plain_run_reachable w Hrun) as Hreach.
  pose proof (reachable_keys_NoDup w Hreach) as Hnodup.
  split; [done|]. intros Hkv.
  destruct (reachable_registry_ok w Hreach k v Hkv) as (? & ? & _ & ?).
  split_and!; try done; [by eapply plain_run_registry_named|].
  clear -Hnodup Hkv. induction (USED_TEMP_DIRS (proc w)) as [|[k0 v0] r IH]; simpl.
  - by apply elem_of_nil in Hkv.
  - apply NoDup_cons in Hnodup as [Hk0 Hr]. case_bool_decide; subst.
    + apply elem_of_cons in Hkv as [[= ->]|Hin]; [done|].
      destruct Hk0. apply list_elem_of_fmap. by exists (k, v).
    + apply elem_of_cons in Hkv as [[= -> ->]|Hin]; [done|]. by apply IH.
Qed.

(** X11.  No descriptor is left open: [LockFile.init] closes the
    descriptor it opens, so that [init] of a lock file, [createDirectory],
    [dispose] and [disposeDirectories] all end with the descriptors that
    were open when they started. *)
Theorem no_descriptor_left_open
    (lf : LockFile) (prefix : string) (a : TempDirectory) (w : World) :
  open_fds (proc (LockFile_init lf w).2) = open_fds (proc w) ∧
  open_fds (proc (createDirectory prefix w).2) = open_fds (proc w) ∧
  open_fds (proc (dispose a w).2) = open_fds (proc w) ∧
  open_fds (proc (disposeDirectories w).2) = open_fds (proc w).
Proof.
  split_and!.
  - rewrite LockFile_init_eq. by destruct (fs_open_excl _ _ _).
  - destruct (createDirectory prefix w) as [r w'] eqn:Hc.
    by destruct (init_frame _ _ _ _ Hc) as (? & _).
  - destruct (dispose a w) as [r w'] eqn:Hd.
    by destruct (dispose_frame _ _ _ _ Hd) as (? & _).
  - destruct (disposeDirectories w) as [r w'] eqn:Hd. simpl.
    unfold disposeDirectories, registry_values in Hd.
    rewrite (bind_Ok _ _ w (Object_values (USED_TEMP_DIRS (proc w))) w) in Hd by done.
    eapply (forEach_dispose_preserves (λ w0, open_fds (proc w0) = open_fds (proc w)));
      [|done|exact Hd].
    intros v w0 r0 w0' _ Hinv Hd0.
    destruct (dispose_frame _ _ _ _ Hd0) as (Hfds & _). congruence.
Qed.

(** X12.  [disposeDirectories] removes nothing but lock files of registered
    allocations: the directories are those from before, no file is new, and
    a file that no registered object names as its lock file is still
    there. *)
Theorem disposeDirectories_touches_only_locks (w w' : World) (r : Res unit) :
  disposeDirectories w = (r, w') →
  (∀ q, is_dir (nodes (fs w') !! q) = is_dir (nodes (fs w) !! q)) ∧
  (∀ q c, nodes (fs w') !! q = Some (File c) → nodes (fs w) !! q = Some (File c)) ∧
  (∀ q c, nodes (fs w) !! q = Some (File c) →
          (∀ v, v ∈ Object_values (USED_TEMP_DIRS (proc w)) →
                lockFile v ≠ Some (mkLockFile q)) →
          nodes (fs w') !! q = Some (File c)).
Proof.
  intros Hd. unfold disposeDirectories, registry_values in Hd.
  rewrite (bind_Ok _ _ w (Object_values (USED_TEMP_DIRS (proc w))) w) in Hd by done.
  split_and!.
  - intros q.
    eapply (forEach_dispose_preserves
              (λ w0, is_dir (nodes (fs w0) !! q) = is_dir (nodes (fs w) !! q)));
      [|done|exact Hd].
    intros v w0 r0 w0' _ Hinv Hd0.
    destruct (dispose_frame _ _ _ _ Hd0) as (_ & Hdirs & _). by rewrite Hdirs.
  - intros q c.
    eapply (forEach_dispose_preserves
              (λ w0, nodes (fs w0) !! q = Some (File c) → nodes (fs w) !! q = Some (File c)));
      [|done|exact Hd].
    intros v w0 r0 w0' _ Hinv Hd0.
    destruct (dispose_frame _ _ _ _ Hd0) as (_ & _ & Hnew & _). by auto.
  - intros q c Hq Hother.
    eapply (forEach_dispose_preserves (λ w0, nodes (fs w0) !! q = Some (File c)));
      [|exact Hq|exact Hd].
    intros v w0 r0 w0' Hv Hinv Hd0.
    destruct (dispose_frame _ _ _ _ Hd0) as (_ & _ & _ & Hkeep & _). by auto.
Qed.

(** *** The scan, and the first allocation in a new pool *)

(** X13.  [_findFreeTmpDir] never throws.  It answers [false] exactly when
    the lock of no name in the list can be acquired, and then neither the
    object nor the world has changed.  When it answers [true], the object
    has the path and the lock file of one of the names of the list, whose
    lock could be acquired and is now held; its prefix is unchanged, and so
    is the process. *)
Theorem findFreeTmpDir_outcome (this : TempDirectory) (l : list string) (w : World) :
  ∃ this' (found : bool) w',
    _findFreeTmpDir this l w = (Ok (this', found), w') ∧
    (found = false ↔ ∀ c, c ∈ l → can_acquire w c = false) ∧
    (found = false → this' = this ∧ w' = w) ∧
    (found = true →
       ∃ d, d ∈ l ∧ can_acquire w d = true ∧
            path this' = path_join TESTCAFE_TMP_DIRS_ROOT d ∧
            lockFile this' = Some (LockFile_new (path this')) ∧
            namePrefix this' = namePrefix this ∧
            holds_lock w' (path this') ∧ proc w' = proc w).
Proof.
  destruct (_findFreeTmpDir_spec this l w)
    as [[Hnone ->]|(l1 & d & l2 & f' & -> & Hl1 & Ho & ->)].
  - eexists _, false, _. split; [done|]. split_and!; try done.
  - assert (can_acquire w d = true) as Hd by (apply can_acquire_true; eauto).
    assert (d ∈ l1 ++ d :: l2) as Hin.
    { apply elem_of_app. right. apply list_elem_of_here. }
    eexists _, true, _. split; [done|]. split_and!; try done.
    + split; [done|]. intros Hall. by rewrite (Hall d Hin) in Hd.
    + intros _. exists d. simpl. split_and!; try done.
      unfold holds_lock. simpl. apply (fs_open_excl_file _ _ _ _ _ _ Ho). by left.
Qed.

(** X14.  What [_getTmpDirsList] answers after any sequence of allocations
    and releases, [os.tmpdir()] not being empty and the entries of the pool
    root being plain names: the entries that start with the prefix and are
    not named like a property of [Object.prototype], in the order of the
    listing.  The registry has no part in it. *)
Theorem getTmpDirsList_answer
    (this : TempDirectory) (w : World) (wr : bool) (tmpDirNames : list string) :
  os_tmpdir ≠ "" → reachable w →
  nodes (fs w) !! TESTCAFE_TMP_DIRS_ROOT = Some (Dir true wr tmpDirNames) →
  (∀ n, n ∈ tmpDirNames → plain n = true) →
  _getTmpDirsList this w =
    (Ok (List.filter
           (λ tmpDir, negb (bool_decide (tmpDir ∈ Object_prototype_keys)) &&
                      startsWith tmpDir (namePrefix this))
           tmpDirNames), w).
Proof.
  intros Htmp Hreach Hroot Hplain.
  rewrite _getTmpDirsList_eq. unfold fs_readdir. rewrite Hroot. f_equal. f_equal.
  unfold candidates. clear Hroot.
  induction tmpDirNames as [|n l IH]; [done|]. simpl.
  rewrite (registry_lookup_by_name w n Htmp Hreach (Hplain n (list_elem_of_here _ _))).
  rewrite <- IH by (intros n' Hn'; by apply Hplain, list_elem_of_further).
  destruct (bool_decide (n ∈ Object_prototype_keys)); simpl; [done|].
  by rewrite (basename_plain n (Hplain n (list_elem_of_here _ _))).
Qed.



(** X16.  Allocations that do not overlap exclude each other.  When a
    [createDirectory] has returned and holds the lock of its directory, a
    later [createDirectory], by the same process or by any other process on
    the same file system, with whatever prefix, returns another directory
    and leaves the marker of the first one in place. *)
Theorem completed_allocation_excludes_later_ones
    (prefix prefix' : string) (w w1 w2 : World) (a b : TempDirectory) (other : Proc) :
  createDirectory prefix w = (Ok a, w1) →
  holds_lock w1 (path a) →
  createDirectory prefix' (switch_to other w1) = (Ok b, w2) →
  path b ≠ path a ∧
  nodes (fs w2) !! marker_of (path a) = Some (File (pid (proc w1))).
Proof.
  intros Ha Hheld Hb.
  destruct (init_effect _ _ _ _ Ha) as (_ & _ & _ & _ & _ & _ & _ & (r & es & Hdir) & _).
  destruct (init_effect _ _ _ _ Hb) as (_ & _ & Hkeep & _).
  split; [|by apply Hkeep].
  intros Heq.
  destruct (init_result_origin _ _ _ _ Hb)
    as (f1 & Hroot & [(names & c & _ & _ & _ & Hnone)|(m & _ & Hnone)]).
  - destruct (fs_mkdirp_inr _ _ _ _ Hroot) as (_ & Hfiles & _).
    rewrite Heq, (proj2 (Hfiles _ _) Hheld) in Hnone. done.
  - rewrite Heq in Hnone. eapply fs_mkdirp_keeps_nodes; [exact Hroot| |exact Hnone].
    simpl. by rewrite Hdir.
Qed.

(** X17.  [dispose] goes by the path alone.  When the registry holds an
    object [b] under the path of [a], [dispose] of [a] does what [dispose]
    of [b] does, whether or not [a] is [b]: both return normally and lead to
    the same world, in which the path is no longer registered and its lock
    is no longer held. *)
Theorem dispose_goes_by_path (a b : TempDirectory) (w : World) :
  reachable w → obj_wf a →
  own_get (path a) (USED_TEMP_DIRS (proc w)) = Some b →
  ∃ w', dispose a w = (Ok a, w') ∧ dispose b w = (Ok b, w') ∧
    ¬ registered w' (path b) ∧ ¬ holds_lock w' (path b).
Proof.
  intros Hok%reachable_registry_ok Hwf Hb.
  destruct (Hok _ _ (own_get_Some_elem_of _ _ _ Hb)) as (Hpath & Hlockb & Hne & Hdir).
  assert (lockFile a = Some (LockFile_new (path a))) as Hlocka.
  { by destruct Hwf as [[? _]|[_ ?]]. }
  rewrite <- Hpath in Hlockb, Hb, Hdir, Hne.
  destruct (dispose_step b w Hlockb Hne Hdir) as (w' & Hd & Hreg & Hfile & _).
  { left. unfold registered. by rewrite Hb. }
  exists w'. split_and!; [|done| |].
  - revert Hd. rewrite !dispose_eq, Hlocka, Hlockb, Hpath.
    destruct (negb _); by intros [= <-].
  - unfold registered. rewrite Hreg, own_get_js_delete, decide_True by done.
    by intros [? ?].
  - unfold holds_lock. intros Hh. by rewrite Hh in Hfile.
Qed.

End TempDirectoryModule.

(** ** The sample worlds, with [os.tmpdir()] being [/tmp] *)

Ltac no_files :=
  let p := fresh "p" in
  let Hp := fresh "Hp" in
  intros p Hp; simpl in Hp;
  repeat (apply lookup_insert_Some in Hp as [[_ ?]|[_ Hp]]; [done|]);
  by apply lookup_singleton_Some in Hp as [_ ?].

Lemma initial_pool_abc : initial (sample_world fs_pool_abc 7).
Proof. split; [done|no_files]. Qed.

Lemma initial_empty_pool inodes me : initial (sample_world (fs_empty_pool inodes) me).
Proof. split; [done|no_files]. Qed.

Lemma claim_worker_abc :
  createDirectory "/tmp" "worker" (sample_world fs_pool_abc 7)
  = (Ok worker_abc, world_abc_claimed).
Proof. vm_compute. reflexivity. Qed.

Lemma fresh_worker_aaa_unlocked :
  createDirectory "/tmp" "worker" (sample_world (fs_empty_pool 1) 7)
  = (Ok worker_aaa, world_aaa_unlocked).
Proof. vm_compute. reflexivity. Qed.

Lemma reachable_abc_claimed : reachable "/tmp" world_abc_claimed.
Proof.
  eapply reachable_createDirectory;
    [apply reachable_initial, initial_pool_abc|apply claim_worker_abc].
Qed.

Lemma locked_run_abc_claimed : locked_run "/tmp" world_abc_claimed.
Proof.
  eapply locked_run_createDirectory;
    [apply locked_run_initial, initial_pool_abc|apply claim_worker_abc|].
  intros a [= <-]. vm_compute. reflexivity.
Qed.

Lemma sample_random_plain n : plain (sample_random n) = true.
Proof. by destruct n as [|[|[|n]]]. Qed.

Lemma plain_run_abc_claimed : plain_run "/tmp" world_abc_claimed.
Proof.
  apply (plain_run_createDirectory "/tmp" (sample_world fs_pool_abc 7) "worker"
           (Ok worker_abc) world_abc_claimed);
    [apply plain_run_initial, initial_pool_abc|reflexivity|apply sample_random_plain
    |apply claim_worker_abc].
Qed.

(** Where [path_join] is not [path.join]: a segment [..] and the directory
    [/] are resolved by the normalisation; a prefix that is a single
    segment and a normalised [os.tmpdir()] keep the module away from both. *)
Example path_join_outside_its_domain :
  posix_join "/tmp/testcafe-tmp" "../x-aaa" = "/tmp/x-aaa" ∧
  path_join "/tmp/testcafe-tmp" "../x-aaa" = "/tmp/testcafe-tmp/../x-aaa" ∧
  posix_join "/" "testcafe-tmp" = "/testcafe-tmp" ∧
  path_join "/" "testcafe-tmp" = "//testcafe-tmp" ∧
  proper_segment "../x-aaa" = false ∧ normal_dir "/" = false ∧
  normal_dir "/tmp" = true ∧ proper_segment "worker-aaa" = true.
Proof. vm_compute. by split_and!. Qed.

(** The scenarios of the spec: a locked candidate is passed over and a
    fresh directory made; a directory released by this process is taken
    again by its next allocation. *)
Example locked_candidate_is_skipped :
  (createDirectory "/tmp" "worker" (sample_world fs_pool_abc_locked 7)).1
  = Ok worker_aaa.
Proof. vm_compute. reflexivity. Qed.

Example released_directory_is_reused :
  ((a ← createDirectory "/tmp" "worker";
    dispose a;;
    createDirectory "/tmp" "worker") (sample_world fs_pool_abc 7)).1
  = Ok worker_abc.
Proof. vm_compute. reflexivity. Qed.

Lemma reachable_aaa_unlocked : reachable "/tmp" world_aaa_unlocked.
Proof.
  eapply reachable_createDirectory;
    [apply reachable_initial, (initial_empty_pool 1 7)|apply fresh_worker_aaa_unlocked].
Qed.

(** C1, on the code.  Two processes allocate with the same prefix in an
    empty pool.  Process 1 runs [init] up to the [await] in
    [_createNewTmpDir]: its fresh directory exists, without a marker.
    Process 2 then runs a whole [createDirectory]: it finds that directory
    in the listing and creates its marker.  Process 1 resumes: its own lock
    attempt fails, the result is dropped, and it registers the directory.
    Both allocations succeed with the same path. *)
Theorem concurrent_allocations_share_a_directory :
  ∃ sA wA1 b wB a wA2,
    init_before_await "/tmp" (TempDirectory_new "worker")
      (sample_world (fs_empty_pool 16) 1) = (Ok sA, wA1) ∧
    createDirectory "/tmp" "worker" (switch_to (sample_proc 2) wA1) = (Ok b, wB) ∧
    init_after_await sA (switch_to (proc wA1) wB) = (Ok a, wA2) ∧
    pid (proc wA2) = 1 ∧ pid (proc wB) = 2 ∧
    path a = "/tmp/testcafe-tmp/worker-aaa" ∧
    path b = "/tmp/testcafe-tmp/worker-aaa" ∧
    registered wA2 (path a) ∧ registered wB (path b) ∧
    holds_lock wB (path b) ∧ ¬ holds_lock wA2 (path a).
Proof.
  eexists _, _, _, _, _, _.
  split; [vm_compute; reflexivity|].
  split; [vm_compute; reflexivity|].
  split; [vm_compute; reflexivity|].
  split_and!; try (vm_compute; reflexivity).
  - vm_compute. eauto.
  - vm_compute. eauto.
  - vm_compute. intros [=].
Qed.

(** C2, on the code.  Process 7 holds [worker-abc]: the path is a key of its
    registry and the marker is its own.  The candidate list for the prefix
    [worker] still contains [worker-abc]. *)
Theorem getTmpDirsList_keeps_held_dir :
  reachable "/tmp" world_abc_claimed ∧
  registered world_abc_claimed "/tmp/testcafe-tmp/worker-abc" ∧
  holds_lock world_abc_claimed "/tmp/testcafe-tmp/worker-abc" ∧
  _getTmpDirsList "/tmp" (TempDirectory_new "worker") world_abc_claimed
  = (Ok ["worker-abc"], world_abc_claimed).
Proof.
  split_and!.
  - apply reachable_abc_claimed.
  - vm_compute. eauto.
  - vm_compute. reflexivity.
  - vm_compute. reflexivity.
Qed.

(** C3 as stated fails.  The pool root exists and cannot be listed:
    [createDirectory] rejects, although creating the pool root does not
    fail (it is there) and creating a fresh directory does not fail either:
    it is not reached, and would succeed if it were. *)
Lemma allocate_rejects_on_unlistable_pool :
  rejects (createDirectory "/tmp" "worker" (sample_world fs_unreadable_pool 7)) ∧
  ¬ pool_root_creation_fails "/tmp" (sample_world fs_unreadable_pool 7) ∧
  ¬ fallback_creation_fails "/tmp" "worker" (sample_world fs_unreadable_pool 7) ∧
  ¬ rejects (_createNewTmpDir "/tmp" (TempDirectory_new "worker")
               (sample_world fs_unreadable_pool 7)).
Proof.
  split_and!.
  - by vm_compute.
  - unfold pool_root_creation_fails. vm_compute. by intros ?.
  - intros (w1 & tmpDirNames & He & Hr & _).
    vm_compute in He. injection He as <-.
    vm_compute in Hr. discriminate Hr.
  - vm_compute. by intros ?.
Qed.

(** C4 as stated fails.  One inode is left; the allocation creates its
    directory, cannot create the marker, and registers the directory all the
    same: the path is a key of the registry and the lock is not held. *)
Lemma registered_without_lock :
  createDirectory "/tmp" "worker" (sample_world (fs_empty_pool 1) 7)
  = (Ok worker_aaa, world_aaa_unlocked) ∧
  reachable "/tmp" world_aaa_unlocked ∧
  registered world_aaa_unlocked (path worker_aaa) ∧
  ¬ holds_lock world_aaa_unlocked (path worker_aaa).
Proof.
  split_and!.
  - apply fresh_worker_aaa_unlocked.
  - apply reachable_aaa_unlocked.
  - vm_compute. eauto.
  - vm_compute. intros [=].
Qed.

(** ** The theorems at work on the sample worlds *)

Lemma LockFile_init_exclusive_create_witness :
  creatable fs_pool_abc "/tmp/testcafe-tmp/worker-abc/.testcafe-lockfile" ∧
  ∃ w', LockFile_init (LockFile_new "/tmp/testcafe-tmp/worker-abc")
          (sample_world fs_pool_abc 7) = (Ok true, w') ∧
    nodes (fs w') !! "/tmp/testcafe-tmp/worker-abc/.testcafe-lockfile" = Some (File 7) ∧
    fs_readdir "/tmp/testcafe-tmp/worker-abc" (fs w') = inr [".testcafe-lockfile"] ∧
    free_inodes (fs w') = 15.
Proof.
  assert (creatable fs_pool_abc "/tmp/testcafe-tmp/worker-abc/.testcafe-lockfile") as Hcan.
  { split_and!; [vm_compute; reflexivity| |simpl; lia].
    exists "/tmp/testcafe-tmp/worker-abc", ".testcafe-lockfile", true, [].
    split; vm_compute; reflexivity. }
  split; [exact Hcan|].
  destruct (LockFile_init_exclusive_create (LockFile_new "/tmp/testcafe-tmp/worker-abc")
              (sample_world fs_pool_abc 7))
    as (acquired & w' & Hinit & _ & Hiff & Hmade & Hfs & _).
  assert (acquired = true) as -> by (by apply Hiff).
  exists w'. split; [exact Hinit|].
  destruct (Hfs eq_refl) as (d & b & r & es & Hs & Hd & Hnodes & Hfree).
  vm_compute in Hs. injection Hs as <- <-.
  vm_compute in Hd. injection Hd as <- <-.
  split_and!.
  - apply (proj1 Hmade eq_refl).
  - unfold fs_readdir. rewrite Hnodes. vm_compute. reflexivity.
  - simpl in Hfree. lia.
Defined.

Lemma registry_tracks_locks_witness :
  reachable "/tmp" world_abc_claimed ∧ locked_run "/tmp" world_abc_claimed ∧
  (holds_lock world_abc_claimed "/tmp/testcafe-tmp/worker-abc" →
   registered world_abc_claimed "/tmp/testcafe-tmp/worker-abc") ∧
  (registered world_abc_claimed "/tmp/testcafe-tmp/worker-abc" ↔
   holds_lock world_abc_claimed "/tmp/testcafe-tmp/worker-abc").
Proof.
  split; [apply reachable_abc_claimed|]. split; [apply locked_run_abc_claimed|].
  destruct (registry_tracks_locks "/tmp" world_abc_claimed "/tmp/testcafe-tmp/worker-abc"
              reachable_abc_claimed) as [Hheld Hiff].
  split; [exact Hheld|exact (Hiff locked_run_abc_claimed)].
Defined.

Lemma release_idempotent_witness :
  reachable "/tmp" world_abc_claimed ∧ obj_wf "/tmp" worker_abc ∧
  (∃ w', LockFile_dispose (LockFile_new (path worker_abc)) world_abc_claimed = (Ok tt, w')) ∧
  (nodes (fs world_abc_claimed) !! lf_path (LockFile_new (path worker_abc)) = None →
   LockFile_dispose (LockFile_new (path worker_abc)) world_abc_claimed
   = (Ok tt, world_abc_claimed)) ∧
  (∃ w1, dispose worker_abc world_abc_claimed = (Ok worker_abc, w1) ∧
         dispose worker_abc w1 = (Ok worker_abc, w1)) ∧
  (¬ registered world_abc_claimed (path worker_abc) →
   dispose worker_abc world_abc_claimed = (Ok worker_abc, world_abc_claimed)).
Proof.
  assert (obj_wf "/tmp" worker_abc) as Hwf.
  { right. split; [|reflexivity]. exists "worker-abc". vm_compute. reflexivity. }
  split; [apply reachable_abc_claimed|]. split; [exact Hwf|].
  apply (release_idempotent "/tmp" (LockFile_new (path worker_abc)) worker_abc
           world_abc_claimed reachable_abc_claimed Hwf).
Defined.

Lemma allocate_claims_first_free_witness :
  nodes fs_pool_abc !! TESTCAFE_TMP_DIRS_ROOT "/tmp" = Some (Dir true true ["worker-abc"]) ∧
  ∃ a w', createDirectory "/tmp" "worker" (sample_world fs_pool_abc 7) = (Ok a, w') ∧
    path a = "/tmp/testcafe-tmp/worker-abc" ∧
    holds_lock w' (path a) ∧
    (∀ q, is_dir (nodes (fs w') !! q) = is_dir (nodes fs_pool_abc !! q)).
Proof.
  assert (nodes fs_pool_abc !! TESTCAFE_TMP_DIRS_ROOT "/tmp"
          = Some (Dir true true ["worker-abc"])) as Hroot by (vm_compute; reflexivity).
  split; [exact Hroot|].
  destruct (allocate_claims_first_free "/tmp" "worker" (sample_world fs_pool_abc 7)
              true ["worker-abc"] Hroot) as [Hfirst _].
  destruct (Hfirst [] "worker-abc" [])
    as (a & w' & Hc & Hpath & _ & _ & _ & Hheld & _ & Hdirs).
  - vm_compute. reflexivity.
  - intros c Hc. by apply elem_of_nil in Hc.
  - vm_compute. reflexivity.
  - exists a, w'. split_and!; try done.
Defined.

Lemma allocate_creates_fresh_dir_witness :
  (∃ a w', createDirectory "/tmp" "worker" (sample_world fs_no_pool 7) = (Ok a, w') ∧
     path a = "/tmp/testcafe-tmp/worker-aaa" ∧
     nodes fs_no_pool !! path a = None ∧
     is_dir (nodes (fs w') !! path a) = true ∧
     own_get (path a) (USED_TEMP_DIRS (proc w')) = Some a ∧
     holds_lock w' (path a)) ∧
  (∃ a w', createDirectory "/tmp" "worker" (sample_world (fs_empty_pool 1) 7) = (Ok a, w') ∧
     path a = "/tmp/testcafe-tmp/worker-aaa" ∧
     is_dir (nodes (fs w') !! path a) = true ∧
     own_get (path a) (USED_TEMP_DIRS (proc w')) = Some a ∧
     nodes (fs w') !! marker_of (path a) = None).
Proof.
  split.
  - edestruct (allocate_creates_fresh_dir "/tmp" "worker" (sample_world fs_no_pool 7))
      as (acquired & w3 & a & w' & _ & Hc & _ & _ & Hpath & _ & _ & Habsent & _ & Hdir
          & Hreg & Hiff & Hheld & _).
    + reflexivity.
    + apply sample_random_plain.
    + vm_compute. reflexivity.
    + vm_compute. reflexivity.
    + intros c Hc. vm_compute in Hc. by apply elem_of_nil in Hc.
    + vm_compute. reflexivity.
    + vm_compute. reflexivity.
    + exists a, w'. rewrite Hpath. split_and!; try done.
      apply Hheld, Hiff. split; [vm_compute; reflexivity|simpl; lia].
  - edestruct (allocate_creates_fresh_dir "/tmp" "worker" (sample_world (fs_empty_pool 1) 7))
      as (acquired & w3 & a & w' & _ & Hc & _ & _ & Hpath & _ & _ & _ & _ & Hdir
          & Hreg & Hiff & _ & Hfailed).
    + reflexivity.
    + apply sample_random_plain.
    + vm_compute. reflexivity.
    + vm_compute. reflexivity.
    + intros c Hc. vm_compute in Hc. by apply elem_of_nil in Hc.
    + vm_compute. reflexivity.
    + vm_compute. reflexivity.
    + exists a, w'. rewrite Hpath. split_and!; try done.
      destruct acquired.
      * destruct (proj1 Hiff eq_refl) as [_ Hfree]. simpl in Hfree. lia.
      * rewrite (Hfailed eq_refl). vm_compute. reflexivity.
Defined.

Lemma disposeDirectories_releases_all_witness :
  reachable "/tmp" world_abc_claimed ∧
  ∃ w', disposeDirectories world_abc_claimed = (Ok tt, w') ∧
    USED_TEMP_DIRS (proc w') = [] ∧
    (∀ d, registered world_abc_claimed d →
          is_file (nodes (fs w') !! marker_of d) = false ∧
          ¬ holds_lock w' d ∧
          is_dir (nodes (fs w') !! d) = true) ∧
    (∀ q, is_dir (nodes (fs w') !! q) = is_dir (nodes (fs world_abc_claimed) !! q)).
Proof.
  split; [apply reachable_abc_claimed|].
  apply (disposeDirectories_releases_all "/tmp" world_abc_claimed reachable_abc_claimed).
Defined.

Lemma dispose_removes_only_own_entry_witness :
  reachable "/tmp" world_abc_claimed ∧
  own_get (path worker_abc) (USED_TEMP_DIRS (proc world_abc_claimed)) = Some worker_abc ∧
  ∃ a' w', dispose worker_abc world_abc_claimed = (Ok a', w') ∧
    path a' = path worker_abc ∧ lockFile a' = lockFile worker_abc ∧
    USED_TEMP_DIRS (proc w') =
      js_delete (path worker_abc) (USED_TEMP_DIRS (proc world_abc_claimed)) ∧
    own_get (path worker_abc) (USED_TEMP_DIRS (proc w')) = None ∧
    (∀ k, k ≠ path worker_abc →
          own_get k (USED_TEMP_DIRS (proc w')) =
          own_get k (USED_TEMP_DIRS (proc world_abc_claimed))).
Proof.
  assert (own_get (path worker_abc) (USED_TEMP_DIRS (proc world_abc_claimed))
          = Some worker_abc) as Hreg by (vm_compute; reflexivity).
  split; [apply reachable_abc_claimed|]. split; [exact Hreg|].
  apply (dispose_removes_only_own_entry "/tmp" worker_abc world_abc_claimed
           reachable_abc_claimed Hreg).
Defined.

(** ** The further properties at work on the sample worlds *)

Lemma obj_wf_worker_abc : obj_wf "/tmp" worker_abc.
Proof. right. split; [|reflexivity]. exists "worker-abc". vm_compute. reflexivity. Qed.

Lemma lock_excludes_every_process_witness :
  LockFile_init (LockFile_new (path worker_abc))
    (LockFile_init (LockFile_new (path worker_abc)) (sample_world fs_pool_abc 7)).2
  = (Ok false, (LockFile_init (LockFile_new (path worker_abc)) (sample_world fs_pool_abc 7)).2) ∧
  LockFile_init (LockFile_new (path worker_abc))
    (switch_to (sample_proc 2)
       (LockFile_init (LockFile_new (path worker_abc)) (sample_world fs_pool_abc 7)).2)
  = (Ok false,
     switch_to (sample_proc 2)
       (LockFile_init (LockFile_new (path worker_abc)) (sample_world fs_pool_abc 7)).2).
Proof.
  apply (lock_excludes_every_process (LockFile_new (path worker_abc))
           (sample_world fs_pool_abc 7)).
  vm_compute. reflexivity.
Defined.

Lemma lock_acquire_release_witness :
  ∃ w2,
    LockFile_dispose (LockFile_new (path worker_abc))
      (LockFile_init (LockFile_new (path worker_abc)) (sample_world fs_pool_abc 7)).2
    = (Ok tt, w2) ∧
    nodes (fs w2) !! lf_path (LockFile_new (path worker_abc)) = None ∧
    free_inodes (fs w2) = 16.
Proof.
  destruct (lock_acquire_release (LockFile_new (path worker_abc))
              (sample_world fs_pool_abc 7)
              (LockFile_init (LockFile_new (path worker_abc)) (sample_world fs_pool_abc 7)).2)
    as (w2 & Hd & Hgone & Hfree & _).
  - vm_compute. reflexivity.
  - exists w2. split_and!; done.
Defined.

Lemma createDirectory_postcondition_witness :
  namePrefix worker_abc = "worker" ∧
  (∃ tmpDirName,
     path worker_abc = path_join (TESTCAFE_TMP_DIRS_ROOT "/tmp") tmpDirName ∧
     pool_entry "/tmp" (fs world_abc_claimed) tmpDirName) ∧
  lockFile worker_abc = Some (LockFile_new (path worker_abc)) ∧
  is_dir (nodes (fs world_abc_claimed) !! TESTCAFE_TMP_DIRS_ROOT "/tmp") = true ∧
  writable_dir (fs world_abc_claimed) (path worker_abc) ∧
  own_get (path worker_abc) (USED_TEMP_DIRS (proc world_abc_claimed)) = Some worker_abc ∧
  holds_lock world_abc_claimed (path worker_abc).
Proof.
  destruct (createDirectory_postcondition "/tmp" "worker" (sample_world fs_pool_abc 7)
              world_abc_claimed worker_abc)
    as (Hpre & Hname & Hlock & Hroot & Hdir & Hreg & Hheld).
  - reflexivity.
  - apply sample_random_plain.
  - apply claim_worker_abc.
  - split_and!; [exact Hpre|exact Hname|exact Hlock|exact Hroot|exact Hdir|exact Hreg|].
    apply Hheld. vm_compute. reflexivity.
Defined.

Lemma createDirectory_only_adds_witness :
  (∀ q, is_dir (nodes fs_pool_abc !! q) = true →
        is_dir (nodes (fs world_abc_claimed) !! q) = true) ∧
  (∀ q c, nodes (fs world_abc_claimed) !! q = Some (File c) →
          nodes fs_pool_abc !! q = Some (File c) ∨
          ∃ a, Ok worker_abc = Ok a ∧ q = marker_of (path a) ∧ c = 7).
Proof.
  destruct (createDirectory_only_adds "/tmp" "worker" (sample_world fs_pool_abc 7)
              world_abc_claimed (Ok worker_abc) claim_worker_abc)
    as (Hdirs & _ & _ & Hnew & _).
  split; [exact Hdirs|exact Hnew].
Defined.

Lemma allocation_avoids_locked_dir_witness :
  nodes fs_pool_abc_locked !! "/tmp/testcafe-tmp/worker-abc" ≠ None ∧
  is_file (nodes fs_pool_abc_locked !! marker_of "/tmp/testcafe-tmp/worker-abc") = true ∧
  path worker_aaa ≠ "/tmp/testcafe-tmp/worker-abc".
Proof.
  assert (nodes (fs (sample_world fs_pool_abc_locked 7)) !! "/tmp/testcafe-tmp/worker-abc"
          ≠ None) as Hd by (vm_compute; done).
  assert (is_file (nodes (fs (sample_world fs_pool_abc_locked 7))
                     !! marker_of "/tmp/testcafe-tmp/worker-abc") = true) as Hm
    by (vm_compute; reflexivity).
  split; [exact Hd|]. split; [exact Hm|].
  apply (allocation_avoids_locked_dir "/tmp" "worker" "/tmp/testcafe-tmp/worker-abc"
           (sample_world fs_pool_abc_locked 7)
           (createDirectory "/tmp" "worker" (sample_world fs_pool_abc_locked 7)).2
           worker_aaa Hd Hm).
  vm_compute. reflexivity.
Defined.

Lemma allocation_name_starts_with_prefix_witness :
  ∃ tmpDirName,
    path worker_abc = path_join (TESTCAFE_TMP_DIRS_ROOT "/tmp") tmpDirName ∧
    startsWith (basename tmpDirName) "worker" = true.
Proof.
  apply (allocation_name_starts_with_prefix "/tmp" "worker" (sample_world fs_pool_abc 7)
           world_abc_claimed worker_abc).
  - reflexivity.
  - intros [|[|[|n]]]; reflexivity.
  - apply claim_worker_abc.
Defined.

Lemma dispose_touches_only_its_lock_witness :
  (∀ q, is_dir (nodes (fs (dispose worker_abc world_abc_claimed).2) !! q)
        = is_dir (nodes (fs world_abc_claimed) !! q)) ∧
  (∀ q c, nodes (fs (dispose worker_abc world_abc_claimed).2) !! q = Some (File c) →
          nodes (fs world_abc_claimed) !! q = Some (File c)).
Proof.
  destruct (dispose_touches_only_its_lock worker_abc world_abc_claimed
              (dispose worker_abc world_abc_claimed).2
              (dispose worker_abc world_abc_claimed).1)
    as (Hdirs & Hnew & _).
  - vm_compute. reflexivity.
  - split; [exact Hdirs|exact Hnew].
Defined.

Lemma released_dir_is_claimable_witness :
  ∃ w', dispose worker_abc world_abc_claimed = (Ok worker_abc, w') ∧
    nodes (fs w') !! marker_of (path worker_abc) = None ∧
    can_acquire "/tmp" w' "worker-abc" = true.
Proof.
  destruct (released_dir_is_claimable "/tmp" worker_abc world_abc_claimed)
    as (w' & Hd & Hgone & _ & _ & Hcan).
  - apply reachable_abc_claimed.
  - vm_compute. reflexivity.
  - vm_compute. reflexivity.
  - exists w'. split_and!; [exact Hd|exact Hgone|].
    apply Hcan. vm_compute. reflexivity.
Defined.

Lemma nothing_to_release_after_disposeDirectories_witness :
  ∃ w', disposeDirectories world_abc_claimed = (Ok tt, w') ∧
    dispose worker_abc w' = (Ok worker_abc, w') ∧
    disposeDirectories w' = (Ok tt, w').
Proof.
  apply (nothing_to_release_after_disposeDirectories "/tmp" worker_abc world_abc_claimed
           reachable_abc_claimed obj_wf_worker_abc).
Defined.

Lemma registry_entries_are_pool_dirs_witness :
  NoDup (USED_TEMP_DIRS (proc world_abc_claimed)).*1 ∧
  (("/tmp/testcafe-tmp/worker-abc", worker_abc) ∈ USED_TEMP_DIRS (proc world_abc_claimed) →
   path worker_abc = "/tmp/testcafe-tmp/worker-abc" ∧
   lockFile worker_abc = Some (LockFile_new "/tmp/testcafe-tmp/worker-abc") ∧
   (∃ tmpDirName,
      "/tmp/testcafe-tmp/worker-abc" = path_join (TESTCAFE_TMP_DIRS_ROOT "/tmp") tmpDirName ∧
      startsWith (basename tmpDirName) (namePrefix worker_abc) = true) ∧
   writable_dir (fs world_abc_claimed) "/tmp/testcafe-tmp/worker-abc" ∧
   own_get "/tmp/testcafe-tmp/worker-abc" (USED_TEMP_DIRS (proc world_abc_claimed))
   = Some worker_abc).
Proof.
  apply (registry_entries_are_pool_dirs "/tmp" world_abc_claimed
           "/tmp/testcafe-tmp/worker-abc" worker_abc plain_run_abc_claimed).
Defined.

Lemma disposeDirectories_touches_only_locks_witness :
  (∀ q, is_dir (nodes (fs (disposeDirectories world_abc_claimed).2) !! q)
        = is_dir (nodes (fs world_abc_claimed) !! q)) ∧
  (∀ q c, nodes (fs (disposeDirectories world_abc_claimed).2) !! q = Some (File c) →
          nodes (fs world_abc_claimed) !! q = Some (File c)).
Proof.
  destruct (disposeDirectories_touches_only_locks world_abc_claimed
              (disposeDirectories world_abc_claimed).2
              (disposeDirectories world_abc_claimed).1)
    as (Hdirs & Hnew & _).
  - vm_compute. reflexivity.
  - split; [exact Hdirs|exact Hnew].
Defined.

Lemma getTmpDirsList_answer_witness :
  _getTmpDirsList "/tmp" (TempDirectory_new "worker") world_abc_claimed
  = (Ok (List.filter
           (λ tmpDir, negb (bool_decide (tmpDir ∈ Object_prototype_keys)) &&
                      startsWith tmpDir "worker")
           ["worker-abc"]), world_abc_claimed).
Proof.
  apply (getTmpDirsList_answer "/tmp" (TempDirectory_new "worker") world_abc_claimed
           true ["worker-abc"]).
  - done.
  - apply reachable_abc_claimed.
  - vm_compute. reflexivity.
  - intros n ->%list_elem_of_singleton. reflexivity.
Defined.


Lemma completed_allocation_excludes_later_ones_witness :
  holds_lock world_abc_claimed (path worker_abc) ∧
  path worker_aaa ≠ path worker_abc ∧
  nodes (fs (createDirectory "/tmp" "worker"
               (switch_to (sample_proc 2) world_abc_claimed)).2)
    !! marker_of (path worker_abc) = Some (File 7).
Proof.
  assert (holds_lock world_abc_claimed (path worker_abc)) as Hheld
    by (vm_compute; reflexivity).
  split; [exact Hheld|].
  apply (completed_allocation_excludes_later_ones "/tmp" "worker" "worker"
           (sample_world fs_pool_abc 7) world_abc_claimed
           (createDirectory "/tmp" "worker" (switch_to (sample_proc 2) world_abc_claimed)).2
           worker_abc worker_aaa (sample_proc 2) claim_worker_abc Hheld).
  vm_compute. reflexivity.
Defined.

Lemma dispose_goes_by_path_witness :
  ∃ w',
    dispose (mkTempDirectory "other" (path worker_abc) (lockFile worker_abc))
      world_abc_claimed
    = (Ok (mkTempDirectory "other" (path worker_abc) (lockFile worker_abc)), w') ∧
    dispose worker_abc world_abc_claimed = (Ok worker_abc, w') ∧
    ¬ registered w' (path worker_abc) ∧ ¬ holds_lock w' (path worker_abc).
Proof.
  apply (dispose_goes_by_path "/tmp"
           (mkTempDirectory "other" (path worker_abc) (lockFile worker_abc))
           worker_abc world_abc_claimed reachable_abc_claimed).
  - right. split; [|reflexivity]. exists "worker-abc". vm_compute. reflexivity.
  - vm_compute. reflexivity.
Defined.
